(** * GroupedSelect: a shallow embedding of
      src/components/common/GroupedSelect.tsx

    The component is a React function component.  Its render body is pure
    in the props and in the one piece of hook state ([isOpen]); it is
    embedded as Rocq functions.  The JavaScript values the body relies on
    (a plain object used as a dictionary, [Object.entries], [Array.find],
    the [||] operator on strings) are embedded with the behaviour
    ECMAScript gives them.  The event handlers and the [useEffect] that
    installs the document listener are embedded as a transition system on
    a small world: the document's listener list and the mounted instance. *)

From Stdlib Require Import List String Ascii Bool NArith Arith Lia.
From Stdlib Require Import Sorting.Sorted Sorting.Permutation.
Import ListNotations.
Open Scope string_scope.
Open Scope list_scope.

Set Implicit Arguments.

(** ** Data model *)

(** [interface SelectOption { value: string; label: string; group?: string }] *)
Record SelectOption := mkOption {
  value : string;
  label : string;
  group : option string
}.

(** [interface GroupedSelectProps].  Optional properties are [option]s; the
    [onChange] callback is not a field: its invocations are recorded in the
    output trace of the handlers. *)
Record GroupedSelectProps := mkProps {
  p_value : string;
  p_options : list SelectOption;
  p_placeholder : option string;
  p_className : option string;
  p_disabled : option bool
}.

(** Destructuring defaults of the parameter list (lines 20-27). *)
Definition placeholder (p : GroupedSelectProps) : string :=
  match p_placeholder p with Some s => s | None => "Select..." end.

Definition className (p : GroupedSelectProps) : string :=
  match p_className p with Some s => s | None => "" end.

Definition disabled (p : GroupedSelectProps) : bool :=
  match p_disabled p with Some b => b | None => false end.

(** ** JavaScript values used by the render body *)

(** An abrupt completion: the only exception the body can raise. *)
Inductive JSError := TypeError.

Inductive Completion (A : Type) :=
| Normal (a : A)
| Throw (e : JSError).
Arguments Normal {A} a.
Arguments Throw {A} e.

Definition bind {A B} (c : Completion A) (k : A -> Completion B) : Completion B :=
  match c with
  | Normal a => k a
  | Throw e => Throw e
  end.

Notation "x <- c ;; k" := (bind c (fun x => k))
  (at level 61, c at next level, right associativity).

(** [a || b] on strings: the empty string is the only falsy string. *)
Definition str_or (a b : string) : string :=
  if (a =? "")%string then b else a.

(** [s || d] where [s] may be [undefined]. *)
Definition opt_str_or (s : option string) (d : string) : string :=
  match s with
  | Some a => str_or a d
  | None => d
  end.

(** The accumulator [{} as Record<string, SelectOption[]>]: an ordinary
    object.  Its own properties are kept in creation order. *)
Definition JSObject := list (string * list SelectOption).

(** The property names [{}] inherits from [Object.prototype] (ECMA-262
    20.1.3 and Annex B.2.2).  Each of them holds a function, except
    [__proto__] whose getter returns [Object.prototype] itself. *)
Definition Object_prototype_names : list string :=
  [ "constructor"; "hasOwnProperty"; "isPrototypeOf"; "propertyIsEnumerable";
    "toLocaleString"; "toString"; "valueOf"; "__proto__";
    "__defineGetter__"; "__defineSetter__"; "__lookupGetter__";
    "__lookupSetter__" ].

Definition inherited (k : string) : bool :=
  existsb (String.eqb k) Object_prototype_names.

(** What [acc[group]] can evaluate to. *)
Inductive JSValue :=
| VUndefined
| VArray (l : list SelectOption)
| VBuiltin (name : string).

(** [ToBoolean]: arrays (even empty), functions and objects are truthy. *)
Definition truthy (v : JSValue) : bool :=
  match v with
  | VUndefined => false
  | VArray _ => true
  | VBuiltin _ => true
  end.

Fixpoint own (o : JSObject) (k : string) : option (list SelectOption) :=
  match o with
  | [] => None
  | (k', v) :: r => if (k' =? k)%string then Some v else own r k
  end.

(** [o[k]] : the own property, else the one found on the prototype. *)
Definition get (o : JSObject) (k : string) : JSValue :=
  match own o k with
  | Some l => VArray l
  | None => if inherited k then VBuiltin k else VUndefined
  end.

(** [o[k] = v] : an existing own property keeps its place, a new one is
    created after all the others. *)
Fixpoint set (o : JSObject) (k : string) (v : list SelectOption) : JSObject :=
  match o with
  | [] => [(k, v)]
  | (k', v') :: r =>
      if (k' =? k)%string then (k', v) :: r else (k', v') :: set r k v
  end.

(** [option.group || 'Other'] (line 33). *)
Definition group_of (o : SelectOption) : string :=
  opt_str_or (group o) "Other".

(** The reducer of lines 32-38.  [acc[group].push(option)] is a call of the
    [push] property of whatever [acc[group]] is: only an array has one. *)
Definition reducer (acc : JSObject) (option : SelectOption) : Completion JSObject :=
  let group := group_of option in
  let acc :=
    if negb (truthy (get acc group)) then set acc group [] else acc in
  match get acc group with
  | VArray l => Normal (set acc group (l ++ [option]))
  | VBuiltin _ => Throw TypeError
  | VUndefined => Throw TypeError
  end.

(** [Array.prototype.reduce] with an initial value; an exception raised by
    the callback aborts the iteration. *)
Fixpoint reduce (f : JSObject -> SelectOption -> Completion JSObject)
    (l : list SelectOption) (acc : JSObject) : Completion JSObject :=
  match l with
  | [] => Normal acc
  | x :: r => acc' <- f acc x ;; reduce f r acc'
  end.

(** [const groupedOptions = options.reduce(..., {})]. *)
Definition groupedOptions (options : list SelectOption) : Completion JSObject :=
  reduce reducer options [].

(** *** Property order of [Object.entries] *)

Definition digit_of (c : ascii) : option N :=
  let n := N_of_ascii c in
  if (48 <=? n)%N && (n <=? 57)%N then Some (n - 48)%N else None.

Fixpoint parse_digits (s : string) (acc : N) : option N :=
  match s with
  | EmptyString => Some acc
  | String c r =>
      match digit_of c with
      | Some d => parse_digits r (10 * acc + d)%N
      | None => None
      end
  end.

(** A property name is an array index when it is the canonical decimal
    form of an integer in [0, 2^32 - 2] (ECMA-262 6.1.7). *)
Definition array_index (s : string) : option N :=
  match s with
  | EmptyString => None
  | String c r =>
      if (c =? "0")%char && negb (r =? "")%string then None
      else match parse_digits s 0 with
           | Some n => if (n <? 4294967295)%N then Some n else None
           | None => None
           end
  end.

Definition is_index (k : string) : bool :=
  match array_index k with Some _ => true | None => false end.

Definition index_of (k : string) : N :=
  match array_index k with Some n => n | None => 0%N end.

Fixpoint insert_by_index (x : string * list SelectOption)
    (l : list (string * list SelectOption)) : list (string * list SelectOption) :=
  match l with
  | [] => [x]
  | y :: r =>
      if (index_of (fst x) <=? index_of (fst y))%N then x :: y :: r
      else y :: insert_by_index x r
  end.

Definition sort_by_index (l : list (string * list SelectOption)) :=
  fold_right insert_by_index [] l.

(** [Object.entries(o)]: the own enumerable string-keyed properties in the
    order of [[OwnPropertyKeys]] (ECMA-262 10.1.11.1): array indices in
    ascending numeric order, then the other names in creation order. *)
Definition Object_entries (o : JSObject) : list (string * list SelectOption) :=
  sort_by_index (filter (fun kv => is_index (fst kv)) o)
  ++ filter (fun kv => negb (is_index (fst kv))) o.

Definition Object_keys (o : JSObject) : list string :=
  map fst (Object_entries o).

(** *** The selected label (lines 42-43) *)

(** [options.find(opt => opt.value === value)]. *)
Definition selectedOption (p : GroupedSelectProps) : option SelectOption :=
  find (fun opt => (value opt =? p_value p)%string) (p_options p).

(** [selectedOption?.label || placeholder]. *)
Definition selectedLabel (p : GroupedSelectProps) : string :=
  opt_str_or (option_map label (selectedOption p)) (placeholder p).

(** ** The render tree (lines 67-145)

    Class names are styling and are left out; what is kept is the
    behavioural content: the trigger with its label, its
    [disabled] attribute and the chevron's orientation, and the panel with
    one block per entry of [groupedOptions].  [{isOpen && (...)}] renders
    nothing when [isOpen] is [false]: the panel is then absent. *)
Record OptionRow := mkRow {
  row_value : string;
  row_label : string;
  row_selected : bool
}.

Record GroupBlock := mkBlock {
  block_header : string;
  block_rows : list OptionRow
}.

Record Tree := mkTree {
  trigger_label : string;
  trigger_disabled : bool;
  chevron_rotated : bool;
  panel : option (list GroupBlock)
}.

Definition render_row (p : GroupedSelectProps) (option : SelectOption) : OptionRow :=
  mkRow (value option) (label option) (value option =? p_value p)%string.

Definition render_block (p : GroupedSelectProps)
    (entry : string * list SelectOption) : GroupBlock :=
  mkBlock (fst entry) (map (render_row p) (snd entry)).

(** One call of the component function.  [groupedOptions] is evaluated on
    every render, whatever [isOpen] is, so its exception is the render's. *)
Definition render (p : GroupedSelectProps) (isOpen : bool) : Completion Tree :=
  grouped <- groupedOptions (p_options p) ;;
  Normal (mkTree (selectedLabel p) (disabled p) isOpen
            (if isOpen
             then Some (map (render_block p) (Object_entries grouped))
             else None)).

Definition tree_rows (t : Tree) : list OptionRow :=
  match panel t with
  | Some blocks => flat_map block_rows blocks
  | None => []
  end.

(** ** Handlers

    A handler's observable work is a sequence of actions: calls of the
    caller's [onChange] and calls of the state setter. *)
Inductive Action :=
| OnChange (v : string)
| SetIsOpen (b : bool).

(** [onClick={() => !disabled && setIsOpen(!isOpen)}] (line 72). *)
Definition triggerOnClick (p : GroupedSelectProps) (isOpen : bool) : list Action :=
  if negb (disabled p) then [SetIsOpen (negb isOpen)] else [].

(** [handleSelect] (lines 62-65).  [onChange] is the caller's function; it
    is taken to return. *)
Definition handleSelect (optionValue : string) : list Action :=
  [OnChange optionValue; SetIsOpen false].

(** [handleClickOutside] (lines 47-51).  [attached] is
    [containerRef.current] being non-null, [inside] is
    [containerRef.current.contains(event.target)]. *)
Definition handleClickOutside (attached inside : bool) : list Action :=
  if attached && negb inside then [SetIsOpen false] else [].

(** The calls of [onChange] among the actions, in order. *)
Definition calls (acts : list Action) : list string :=
  flat_map (fun a => match a with OnChange v => [v] | SetIsOpen _ => [] end) acts.

(** The state the batched setter calls leave, starting from [cur]. *)
Definition pending (acts : list Action) (cur : bool) : bool :=
  fold_left (fun b a => match a with SetIsOpen b' => b' | OnChange _ => b end)
            acts cur.

(** ** The mounted instance and the document

    Listeners are function objects; [addEventListener] and
    [removeEventListener] compare them by identity.  Each run of the effect
    body creates a fresh [handleClickOutside]; identities are numbers. *)
Record Instance := mkInstance {
  props : GroupedSelectProps;
  isOpen : bool;
  cleanup : nat
}.

Record World := mkWorld {
  listeners : list nat;
  next_id : nat;
  instance : option Instance
}.

Definition addEventListener (h : nat) (d : list nat) : list nat :=
  if existsb (Nat.eqb h) d then d else d ++ [h].

Definition removeEventListener (h : nat) (d : list nat) : list nat :=
  filter (fun h' => negb (h' =? h)%nat) d.

(** The effect body of lines 46-56 run with handler identity [h]; what it
    returns (lines 57-59) removes that same [h]. *)
Definition effect_body (open : bool) (h : nat) (d : list nat) : list nat :=
  if open then addEventListener h d else d.

(** Unmounting runs the pending cleanup. *)
Definition unmount_instance (i : Instance) (w : World) : World :=
  mkWorld (removeEventListener (cleanup i) (listeners w)) (next_id w) None.

(** A render of the instance with props [p'] and state [open'], followed
    by its commit.  A render that throws unmounts the component.  The
    effect has dependency list [[isOpen]]: it is skipped when [isOpen] did
    not change; otherwise the previous cleanup runs, then the body. *)
Definition commit (i : Instance) (p' : GroupedSelectProps) (open' : bool)
    (w : World) : World :=
  match render p' open' with
  | Throw _ => unmount_instance i w
  | Normal _ =>
      if Bool.eqb open' (isOpen i)
      then mkWorld (listeners w) (next_id w)
                   (Some (mkInstance p' open' (cleanup i)))
      else
        let h := next_id w in
        mkWorld (effect_body open' h
                   (removeEventListener (cleanup i) (listeners w)))
                (S h)
                (Some (mkInstance p' open' h))
  end.

(** First render: [useState(false)], then the effect runs once. *)
Definition mount (p : GroupedSelectProps) : World :=
  match render p false with
  | Throw _ => mkWorld [] 0 None
  | Normal _ => mkWorld (effect_body false 0 []) 1 (Some (mkInstance p false 0))
  end.

(** Running a handler: the setter calls are batched; a state equal to the
    current one schedules no render. *)
Definition dispatch (i : Instance) (acts : list Action) (w : World)
    : World * list string :=
  let open' := pending acts (isOpen i) in
  (if Bool.eqb open' (isOpen i) then w else commit i (props i) open' w,
   calls acts).

Definition rendered_rows (i : Instance) : list OptionRow :=
  match render (props i) (isOpen i) with
  | Normal t => tree_rows t
  | Throw _ => []
  end.

(** ** Events *)
Inductive Event :=
| TriggerClick                       (* activation of the trigger button *)
| RowClick (k : nat)                 (* activation of the k-th option row *)
| MouseDown (inside : bool)          (* a 'mousedown' that bubbles to the document *)
| Rerender (p : GroupedSelectProps)  (* the parent passes new props *)
| Unmount.

(** One event, run to completion.  [None]: the event cannot happen in this
    world (its target is not in the render tree).  The second component is
    the list of arguments [onChange] was called with. *)
Definition step (w : World) (e : Event) : option (World * list string) :=
  match instance w with
  | Some i =>
      match e with
      | TriggerClick =>
          Some (dispatch i (triggerOnClick (props i) (isOpen i)) w)
      | RowClick k =>
          match nth_error (rendered_rows i) k with
          | Some r => Some (dispatch i (handleSelect (row_value r)) w)
          | None => None
          end
      | MouseDown inside =>
          Some (dispatch i
                  (flat_map (fun _ => handleClickOutside true inside)
                            (listeners w)) w)
      | Rerender p' => Some (commit i p' (isOpen i) w, [])
      | Unmount => Some (unmount_instance i w, [])
      end
  | None =>
      match e with
      | MouseDown inside =>
          Some (w, calls (flat_map (fun _ => handleClickOutside false inside)
                                   (listeners w)))
      | _ => None
      end
  end.

Fixpoint run (w : World) (es : list Event) : option (World * list string) :=
  match es with
  | [] => Some (w, [])
  | e :: r =>
      match step w e with
      | Some (w1, out1) =>
          match run w1 r with
          | Some (w2, out2) => Some (w2, out1 ++ out2)
          | None => None
          end
      | None => None
      end
  end.

Inductive reachable : World -> Prop :=
| reach_mount p : reachable (mount p)
| reach_step w e w' out :
    reachable w -> step w e = Some (w', out) -> reachable w'.

(** Visibility state of a world: [Open] is [true]. *)
Definition visible (w : World) : bool :=
  match instance w with
  | Some i => isOpen i
  | None => false
  end.

Definition installed (w : World) : bool :=
  match listeners w with [] => false | _ => true end.

Definition world_rows (w : World) : list OptionRow :=
  match instance w with
  | Some i => rendered_rows i
  | None => []
  end.

(** ** Reference notions used to state the grouping properties *)

(** The distinct elements of a list in order of first occurrence. *)
Fixpoint first_seen (l : list string) : list string :=
  match l with
  | [] => []
  | x :: r => x :: filter (fun y => negb (y =? x)%string) (first_seen r)
  end.

(** The options of group [g], in their original relative order. *)
Definition bucket (options : list SelectOption) (g : string) : list SelectOption :=
  filter (fun o => (group_of o =? g)%string) options.

Definition group_names (options : list SelectOption) : list string :=
  map group_of options.

(** The object that holds, for each name of [keys] in that order, the
    bucket of that name in [l]. *)
Definition buckets_of (keys : list string) (l : list SelectOption) : JSObject :=
  map (fun g => (g, bucket l g)) keys.

(** What the derivation is shown to compute: one bucket per distinct
    group name, in order of first occurrence. *)
Definition grouping (l : list SelectOption) : JSObject :=
  buckets_of (first_seen (group_names l)) l.

(** The weight of the digit that would precede the digits of [s]. *)
Definition pow10 (s : string) : N := (10 ^ N.of_nat (String.length s))%N.

(** Entries compared by the numeric value of their names. *)
Definition index_le (x y : string * list SelectOption) : Prop :=
  (index_of (fst x) <= index_of (fst y))%N.

(** No group name of the list collides with a property inherited from
    [Object.prototype]. *)
Definition own_names_only (options : list SelectOption) : bool :=
  forallb (fun o => negb (inherited (group_of o))) options.

(** Some option's [value] equals the current selected value. *)
Definition has_match (p : GroupedSelectProps) : bool :=
  existsb (fun opt => (value opt =? p_value p)%string) (p_options p).

(** The invariant of the transition system: a mounted instance renders
    without exception, and the document holds exactly the listener of the
    last effect run when the panel is open, and none otherwise. *)
Definition consistent (w : World) : Prop :=
  match instance w with
  | Some i =>
      (exists t, render (props i) (isOpen i) = Normal t)
      /\ listeners w = if isOpen i then [cleanup i] else []
  | None => listeners w = []
  end.

(** The number of row activations among the events. *)
Definition row_clicks (es : list Event) : nat :=
  List.length (filter (fun e => match e with RowClick _ => true | _ => false end) es).

(** The [group] fields that [option.group || 'Other'] sends to ["Other"]. *)
Definition defaults_to_Other (o : SelectOption) : bool :=
  match group o with
  | None => true
  | Some g => (g =? "")%string || (g =? "Other")%string
  end.

(** ** Scenarios of the specification, evaluated *)

Definition opt_a := mkOption "a" "Alpha" (Some "G1").
Definition opt_b := mkOption "b" "Beta" (Some "G1").
Definition opt_c := mkOption "c" "Gamma" None.
Definition props1 := mkProps "c" [opt_a; opt_b; opt_c] None None None.

Example ex_grouped_scenario1 :
  bind (groupedOptions [opt_a; opt_b; opt_c])
       (fun acc => Normal (Object_entries acc))
  = Normal [("G1", [opt_a; opt_b]); ("Other", [opt_c])].
Proof. reflexivity. Qed.

Example ex_label_scenario1 : selectedLabel props1 = "Gamma".
Proof. reflexivity. Qed.

Example ex_label_scenario2 :
  selectedLabel (mkProps "" [] None None None) = "Select...".
Proof. reflexivity. Qed.

Example ex_scenario4 :
  run (mount props1) [TriggerClick; RowClick 1]
  = Some (mkWorld [] 3 (Some (mkInstance props1 false 2)), ["b"]).
Proof. reflexivity. Qed.

Example ex_scenario5 :
  run (mount props1) [TriggerClick; MouseDown false]
  = Some (mkWorld [] 3 (Some (mkInstance props1 false 2)), []).
Proof. reflexivity. Qed.

(** ** Facts on lists of names *)

Section FirstSeen.

Lemma first_seen_In (l : list string) (x : string) :
  In x (first_seen l) <-> In x l.
Proof.
  induction l as [|a l IH]; simpl; [tauto|].
  rewrite filter_In, IH, negb_true_iff, String.eqb_neq.
  destruct (string_dec a x) as [->|Hne]; [tauto|].
  split; [tauto|].
  intros [H|H]; [tauto|]. right. split; [exact H|congruence].
Qed.

Lemma first_seen_NoDup (l : list string) : NoDup (first_seen l).
Proof.
  induction l as [|a l IH]; simpl; constructor.
  - rewrite filter_In, String.eqb_refl. intros [_ H]. discriminate H.
  - now apply NoDup_filter.
Qed.

Lemma existsb_eqb_In (x : string) (l : list string) :
  existsb (String.eqb x) l = true <-> In x l.
Proof.
  rewrite existsb_exists. split.
  - intros (y & Hy & E). apply String.eqb_eq in E. now subst.
  - intros H. exists x. now rewrite String.eqb_refl.
Qed.

Lemma first_seen_snoc (l : list string) (x : string) :
  first_seen (l ++ [x]) =
  if existsb (String.eqb x) l then first_seen l else first_seen l ++ [x].
Proof.
  induction l as [|a l IH]; simpl; [reflexivity|].
  rewrite IH. destruct (String.eqb_spec x a) as [->|Hne]; simpl.
  - destruct (existsb (String.eqb a) l); [reflexivity|].
    now rewrite filter_app; simpl; rewrite String.eqb_refl, app_nil_r.
  - destruct (existsb (String.eqb x) l); [reflexivity|].
    rewrite filter_app; simpl.
    apply String.eqb_neq in Hne. now rewrite Hne.
Qed.

Lemma filter_all_true (A : Type) (Q : A -> bool) (m : list A) :
  (forall x, In x m -> Q x = true) -> filter Q m = m.
Proof.
  induction m as [|b m IH]; simpl; intros H; [reflexivity|].
  rewrite (H b) by now left. f_equal. apply IH. intros x Hx. apply H. now right.
Qed.

Lemma first_seen_filter (P : string -> bool) (l : list string) :
  first_seen (filter P l) = filter P (first_seen l).
Proof.
  induction l as [|a l IH]; simpl; [reflexivity|].
  assert (C : forall Q m, filter P (filter Q m) = filter Q (filter P m)).
  { intros Q m. induction m as [|b m IHm]; simpl; [reflexivity|].
    destruct (P b) eqn:Pb, (Q b) eqn:Qb; simpl;
      rewrite ?Pb, ?Qb, IHm; reflexivity. }
  destruct (P a) eqn:Pa; simpl; rewrite IH, C; [reflexivity|].
  symmetry. apply filter_all_true. intros x Hx.
  apply filter_In in Hx. apply negb_true_iff, String.eqb_neq.
  intros ->. destruct Hx as [_ Hx]. congruence.
Qed.

End FirstSeen.

(** ** The grouping derivation computes the buckets *)

Section Grouping.

Lemma own_buckets_of keys l k :
  own (buckets_of keys l) k = if existsb (String.eqb k) keys
                              then Some (bucket l k) else None.
Proof.
  induction keys as [|a keys IH]; simpl; [reflexivity|].
  rewrite (String.eqb_sym k a).
  destruct (String.eqb_spec a k) as [->|Hne]; simpl; [reflexivity|exact IH].
Qed.

Lemma set_buckets_of keys l l' g :
  NoDup keys -> In g keys ->
  (forall g', g' <> g -> bucket l' g' = bucket l g') ->
  set (buckets_of keys l) g (bucket l' g) = buckets_of keys l'.
Proof.
  intros ND Hin Hsame. induction ND as [|a keys Ha ND IH]; simpl in *; [tauto|].
  destruct (String.eqb_spec a g) as [->|Hne].
  - f_equal. apply map_ext_in. intros b Hb. f_equal. symmetry.
    apply Hsame. intros ->. contradiction.
  - rewrite <- (Hsame a Hne). f_equal. apply IH.
    destruct Hin; [contradiction|assumption].
Qed.

Lemma set_fresh keys l g v :
  ~ In g keys -> set (buckets_of keys l) g v = buckets_of keys l ++ [(g, v)].
Proof.
  intros Hnin. induction keys as [|a keys IH]; simpl in *; [reflexivity|].
  destruct (String.eqb_spec a g) as [->|Hne]; [tauto|].
  f_equal. apply IH. tauto.
Qed.

Lemma bucket_snoc l o g :
  bucket (l ++ [o]) g =
  bucket l g ++ (if (group_of o =? g)%string then [o] else []).
Proof. unfold bucket. rewrite filter_app. reflexivity. Qed.

Lemma bucket_absent l g : ~ In g (group_names l) -> bucket l g = [].
Proof.
  intros Hnin. unfold bucket. induction l as [|o l IH]; simpl in *; [reflexivity|].
  destruct (String.eqb_spec (group_of o) g) as [E|_]; [tauto|].
  apply IH. tauto.
Qed.

Lemma group_names_snoc l o :
  group_names (l ++ [o]) = group_names l ++ [group_of o].
Proof. unfold group_names. now rewrite map_app. Qed.

(** One call of the reducer on a group name that is not inherited. *)
Lemma reducer_grouping (done : list SelectOption) (o : SelectOption) :
  inherited (group_of o) = false ->
  reducer (grouping done) o = Normal (grouping (done ++ [o])).
Proof.
  intros Hinh. unfold reducer, grouping.
  set (g := group_of o) in *. set (keys := first_seen (group_names done)).
  assert (Hget : forall ks l, get (buckets_of ks l) g =
            if existsb (String.eqb g) ks then VArray (bucket l g) else VUndefined).
  { intros ks l. unfold get. rewrite own_buckets_of, Hinh.
    now destruct (existsb (String.eqb g) ks). }
  assert (Hsame : forall g', g' <> g ->
            bucket (done ++ [o]) g' = bucket done g').
  { intros g' Hne. rewrite bucket_snoc. fold g.
    destruct (String.eqb_spec g g'); [congruence|apply app_nil_r]. }
  assert (Hg : bucket (done ++ [o]) g = bucket done g ++ [o]).
  { rewrite bucket_snoc. fold g. now rewrite String.eqb_refl. }
  rewrite group_names_snoc, first_seen_snoc. fold g. fold keys.
  rewrite Hget.
  destruct (existsb (String.eqb g) (group_names done)) eqn:Hseen.
  - assert (Hk : existsb (String.eqb g) keys = true).
    { apply existsb_eqb_In, first_seen_In, existsb_eqb_In, Hseen. }
    rewrite Hk. simpl. rewrite Hget, Hk.
    f_equal. rewrite <- Hg. apply set_buckets_of; auto.
    + apply first_seen_NoDup.
    + now apply existsb_eqb_In.
  - assert (Hnin : ~ In g keys).
    { intros H. apply (proj1 (first_seen_In _ _)) in H.
      apply (proj2 (existsb_eqb_In _ _)) in H.
      rewrite H in Hseen. discriminate Hseen. }
    assert (Hk : existsb (String.eqb g) keys = false).
    { destruct (existsb (String.eqb g) keys) eqn:E; [|reflexivity].
      apply existsb_eqb_In in E. contradiction. }
    rewrite Hk. simpl.
    rewrite set_fresh by exact Hnin.
    assert (Hnone : bucket done g = []).
    { apply bucket_absent. intros H. apply (proj2 (existsb_eqb_In _ _)) in H.
      rewrite H in Hseen. discriminate Hseen. }
    assert (E : buckets_of keys done ++ [(g, [])] = buckets_of (keys ++ [g]) done).
    { unfold buckets_of. rewrite map_app. simpl. now rewrite Hnone. }
    rewrite E, Hget.
    assert (Hk' : existsb (String.eqb g) (keys ++ [g]) = true).
    { apply existsb_eqb_In, in_or_app. right. now left. }
    rewrite Hk', Hnone. simpl. f_equal.
    transitivity (set (buckets_of (keys ++ [g]) done) g (bucket (done ++ [o]) g)).
    { now rewrite Hg, Hnone. }
    apply set_buckets_of; auto.
    + apply NoDup_app; [apply first_seen_NoDup|repeat constructor; simpl; tauto|].
      intros x Hx [<-|[]]. contradiction.
    + apply in_or_app. right. now left.
Qed.

(** One call of the reducer on an inherited name: [acc[group]] is the
    inherited function, which has no [push]. *)
Lemma reducer_inherited (done : list SelectOption) (o : SelectOption) :
  Forall (fun g => inherited g = false) (group_names done) ->
  inherited (group_of o) = true ->
  reducer (grouping done) o = Throw TypeError.
Proof.
  intros Hdone Hinh. unfold reducer, get, grouping.
  rewrite own_buckets_of.
  assert (Hk : existsb (String.eqb (group_of o))
                 (first_seen (group_names done)) = false).
  { destruct (existsb _ _) eqn:E; [|reflexivity].
    apply (proj1 (existsb_eqb_In _ _)) in E.
    apply (proj1 (first_seen_In _ _)) in E.
    rewrite Forall_forall in Hdone. apply Hdone in E. congruence. }
  rewrite Hk, Hinh. simpl. rewrite own_buckets_of, Hk. reflexivity.
Qed.

Lemma reduce_grouping (rest done : list SelectOption) :
  Forall (fun g => inherited g = false) (group_names rest) ->
  reduce reducer rest (grouping done) = Normal (grouping (done ++ rest)).
Proof.
  revert done. induction rest as [|o rest IH]; intros done Hall; simpl.
  - now rewrite app_nil_r.
  - inversion Hall as [|? ? Ho Hrest]; subst.
    rewrite reducer_grouping by exact Ho. simpl.
    rewrite IH by exact Hrest. now rewrite <- app_assoc.
Qed.

(** The derivation returns normally exactly on the lists none of whose
    group names is inherited, and then yields the buckets in creation
    order. *)
Lemma groupedOptions_normal (options : list SelectOption) :
  Forall (fun g => inherited g = false) (group_names options) ->
  groupedOptions options = Normal (grouping options).
Proof. intros H. exact (@reduce_grouping options [] H). Qed.

Lemma reduce_throws (rest done : list SelectOption) :
  Forall (fun g => inherited g = false) (group_names done) ->
  Exists (fun g => inherited g = true) (group_names rest) ->
  reduce reducer rest (grouping done) = Throw TypeError.
Proof.
  revert done. induction rest as [|o rest IH]; intros done Hdone Hex; simpl.
  - inversion Hex.
  - destruct (inherited (group_of o)) eqn:Ho.
    + now rewrite reducer_inherited.
    + rewrite reducer_grouping by exact Ho. simpl. apply IH.
      * rewrite group_names_snoc. apply Forall_app. split; [exact Hdone|].
        now constructor.
      * inversion Hex; subst; [congruence|assumption].
Qed.

Lemma groupedOptions_throws (options : list SelectOption) :
  Exists (fun g => inherited g = true) (group_names options) ->
  groupedOptions options = Throw TypeError.
Proof. intros H. exact (@reduce_throws options [] (Forall_nil _) H). Qed.

End Grouping.

(** ** The order of [Object.entries] *)

Section Entries.

Lemma insert_by_index_perm x l : Permutation (insert_by_index x l) (x :: l).
Proof.
  induction l as [|y l IH]; simpl; [reflexivity|].
  destruct (index_of (fst x) <=? index_of (fst y))%N; [reflexivity|].
  rewrite IH. apply perm_swap.
Qed.

Lemma sort_by_index_perm l : Permutation (sort_by_index l) l.
Proof.
  induction l as [|x l IH]; simpl; [reflexivity|].
  rewrite insert_by_index_perm. now constructor.
Qed.

Lemma insert_by_index_sorted x l :
  StronglySorted index_le l -> StronglySorted index_le (insert_by_index x l).
Proof.
  induction 1 as [|y l Hs IH Hy]; simpl.
  - repeat constructor.
  - destruct (N.leb_spec (index_of (fst x)) (index_of (fst y))) as [Hle|Hgt].
    + constructor; [now constructor|]. constructor; [exact Hle|].
      rewrite Forall_forall in *. intros z Hz. specialize (Hy z Hz).
      unfold index_le in *. lia.
    + constructor; [exact IH|].
      rewrite Forall_forall in *. intros z Hz.
      apply (Permutation_in _ (insert_by_index_perm x l)) in Hz.
      destruct Hz as [<-|Hz]; [unfold index_le; lia|now apply Hy].
Qed.

Lemma sort_by_index_sorted l : StronglySorted index_le (sort_by_index l).
Proof.
  induction l as [|x l IH]; simpl; [constructor|].
  now apply insert_by_index_sorted.
Qed.

Lemma filter_buckets_of (P : string -> bool) keys l :
  filter (fun kv => P (fst kv)) (buckets_of keys l) = buckets_of (filter P keys) l.
Proof.
  unfold buckets_of. induction keys as [|a keys IH]; simpl; [reflexivity|].
  destruct (P a); simpl; now rewrite IH.
Qed.

Lemma keys_buckets_of keys l : map fst (buckets_of keys l) = keys.
Proof. unfold buckets_of. rewrite map_map. simpl. apply map_id. Qed.

Lemma buckets_of_app ks1 ks2 l :
  buckets_of (ks1 ++ ks2) l = buckets_of ks1 l ++ buckets_of ks2 l.
Proof. unfold buckets_of. apply map_app. Qed.

(** A list of entries all of which hold the bucket of their name. *)
Lemma buckets_of_keys es l :
  Forall (fun kv => snd kv = bucket l (fst kv)) es ->
  es = buckets_of (map fst es) l.
Proof.
  induction 1 as [|[k v] es Hkv _ IH]; simpl in *; [reflexivity|].
  now rewrite Hkv, <- IH.
Qed.

Lemma buckets_of_Forall keys l :
  Forall (fun kv => snd kv = bucket l (fst kv)) (buckets_of keys l).
Proof. unfold buckets_of. apply Forall_forall. intros kv H.
  apply in_map_iff in H. destruct H as (g & <- & _). reflexivity. Qed.

(** The entries of the derived object: every entry is the bucket of its
    name, and the names are the array indices in ascending order followed
    by the other names in order of first occurrence. *)
Lemma entries_grouping (options : list SelectOption) :
  let names := first_seen (group_names options) in
  exists idx,
    Object_entries (grouping options)
      = buckets_of (idx ++ filter (fun g => negb (is_index g)) names) options
    /\ Permutation idx (filter is_index names)
    /\ StronglySorted (fun a b => (index_of a <= index_of b)%N) idx.
Proof.
  intros names. unfold Object_entries, grouping. fold names.
  rewrite (filter_buckets_of is_index),
          (filter_buckets_of (fun g => negb (is_index g))).
  set (sorted := sort_by_index (buckets_of (filter is_index names) options)).
  exists (map fst sorted). split; [|split].
  - rewrite buckets_of_app. f_equal.
    apply buckets_of_keys.
    apply (Permutation_Forall (Permutation_sym (sort_by_index_perm _))).
    apply buckets_of_Forall.
  - apply (Permutation_trans
             (l' := map fst (buckets_of (filter is_index names) options))).
    + apply Permutation_map, sort_by_index_perm.
    + now rewrite keys_buckets_of.
  - pose proof (sort_by_index_sorted
                  (buckets_of (filter is_index names) options)) as Hs.
    fold sorted in Hs. clearbody sorted.
    induction Hs as [|x l Hs IH Hx]; simpl; constructor; [exact IH|].
    apply Forall_map. exact Hx.
Qed.

Lemma filter_split_perm (A : Type) (P : A -> bool) (l : list A) :
  Permutation (filter P l ++ filter (fun x => negb (P x)) l) l.
Proof.
  induction l as [|a l IH]; simpl; [constructor|].
  destruct (P a); simpl.
  - now constructor.
  - apply Permutation_sym, Permutation_cons_app, Permutation_sym, IH.
Qed.

(** [Object.entries] lists every own property once. *)
Lemma Object_entries_perm (o : JSObject) : Permutation (Object_entries o) o.
Proof.
  unfold Object_entries.
  rewrite sort_by_index_perm.
  apply (filter_split_perm (fun kv => is_index (fst kv))).
Qed.

End Entries.

(** ** Array indices are canonical: distinct names, distinct numbers *)

Section ArrayIndex.

Local Open Scope N_scope.

Lemma pow10_String c r : pow10 (String c r) = 10 * pow10 r.
Proof.
  unfold pow10. simpl String.length. rewrite Nat2N.inj_succ, N.pow_succ_r'.
  reflexivity.
Qed.

Lemma pow10_pos s : 0 < pow10 s.
Proof. unfold pow10. apply N.neq_0_lt_0, N.pow_nonzero. discriminate. Qed.

Lemma digit_of_spec c d :
  digit_of c = Some d -> N_of_ascii c = d + 48 /\ d <= 9.
Proof.
  unfold digit_of. intros H.
  destruct (N.leb_spec 48 (N_of_ascii c)), (N.leb_spec (N_of_ascii c) 57);
    simpl in H; inversion H; subst; lia.
Qed.

Lemma digit_of_inj c1 c2 d :
  digit_of c1 = Some d -> digit_of c2 = Some d -> c1 = c2.
Proof.
  intros H1 H2. apply digit_of_spec in H1, H2.
  rewrite <- (ascii_N_embedding c1), <- (ascii_N_embedding c2).
  f_equal. lia.
Qed.

Lemma parse_digits_acc s acc :
  parse_digits s acc =
  match parse_digits s 0 with
  | Some v => Some (acc * pow10 s + v)
  | None => None
  end.
Proof.
  revert acc. induction s as [|c r IH]; intros acc; cbn [parse_digits].
  - f_equal. unfold pow10. simpl. lia.
  - destruct (digit_of c) as [d|]; [|reflexivity].
    rewrite (IH (10 * acc + d)), (IH (10 * 0 + d)).
    destruct (parse_digits r 0) as [v|]; [|reflexivity].
    f_equal. rewrite pow10_String. lia.
Qed.

Lemma parse_digits_String c r n :
  parse_digits (String c r) 0 = Some n ->
  exists d v, digit_of c = Some d /\ parse_digits r 0 = Some v
              /\ n = d * pow10 r + v.
Proof.
  cbn [parse_digits]. destruct (digit_of c) as [d|]; [|discriminate].
  rewrite parse_digits_acc.
  destruct (parse_digits r 0) as [v|]; [|discriminate].
  intros H. inversion H. exists d, v. repeat split; lia.
Qed.

Lemma parse_digits_bound s n : parse_digits s 0 = Some n -> n < pow10 s.
Proof.
  revert n. induction s as [|c r IH]; intros n H.
  - inversion H. unfold pow10. simpl. lia.
  - apply parse_digits_String in H. destruct H as (d & v & Hd & Hv & ->).
    apply digit_of_spec in Hd. specialize (IH v Hv).
    rewrite pow10_String. nia.
Qed.

Lemma parse_digits_inj_len s t n :
  String.length s = String.length t ->
  parse_digits s 0 = Some n -> parse_digits t 0 = Some n -> s = t.
Proof.
  revert t n. induction s as [|c r IH]; intros [|c' r'] n Hlen Hs Ht;
    try discriminate Hlen; [reflexivity|].
  injection Hlen as Hlen.
  apply parse_digits_String in Hs, Ht.
  destruct Hs as (d & v & Hd & Hv & ->), Ht as (d' & v' & Hd' & Hv' & E).
  pose proof (parse_digits_bound _ Hv) as Bv.
  pose proof (parse_digits_bound _ Hv') as Bv'.
  assert (Ep : pow10 r' = pow10 r) by (unfold pow10; now rewrite Hlen).
  rewrite Ep in *.
  assert (d = d' /\ v = v') as [-> ->].
  { apply (N.div_mod_unique (pow10 r)); [exact Bv|exact Bv'|lia]. }
  f_equal; [exact (digit_of_inj _ _ Hd Hd')|exact (IH _ _ Hlen Hv Hv')].
Qed.

(** What [array_index] accepts: ["0"], or digits with a non-zero lead. *)
Lemma array_index_canonical s n :
  array_index s = Some n ->
  parse_digits s 0 = Some n /\
  (s = "0"%string \/
   exists c r d, s = String c r /\ digit_of c = Some d /\ 1 <= d).
Proof.
  unfold array_index. destruct s as [|c r]; [discriminate|].
  destruct (Ascii.eqb_spec c "0"%char) as [->|Hc]; simpl andb.
  - destruct (String.eqb_spec r "") as [->|Hr]; simpl negb; cbv iota.
    + destruct (parse_digits "0" 0) as [m|] eqn:E; [|discriminate].
      destruct (m <? 4294967295); [|discriminate].
      intros H. inversion H; subst. split; [reflexivity|now left].
    + discriminate.
  - destruct (parse_digits (String c r) 0) as [m|] eqn:E; [|discriminate].
    destruct (m <? 4294967295); [|discriminate].
    intros H. inversion H; subst. split; [reflexivity|]. right.
    destruct (parse_digits_String _ _ E) as (d & v & Hd & _ & _).
    exists c, r, d. repeat split; [exact Hd|].
    destruct (N.eq_dec d 0) as [->|]; [|lia].
    exfalso. apply Hc. apply (digit_of_inj _ _ Hd). reflexivity.
Qed.

Lemma canonical_lower s n :
  array_index s = Some n -> pow10 s <= 10 * n \/ s = "0"%string.
Proof.
  intros H. apply array_index_canonical in H. destruct H as [Hp [->|Hc]].
  - now right.
  - left. destruct Hc as (c & r & d & -> & Hd & Hd1).
    apply parse_digits_String in Hp. destruct Hp as (d' & v & Hd' & _ & ->).
    rewrite Hd in Hd'. inversion Hd'; subst d'.
    rewrite pow10_String. nia.
Qed.

Lemma pow10_mono s t :
  (String.length s < String.length t)%nat -> 10 * pow10 s <= pow10 t.
Proof.
  intros H. unfold pow10. rewrite <- N.pow_succ_r'.
  apply N.pow_le_mono_r; lia.
Qed.

Lemma array_index_inj s t n :
  array_index s = Some n -> array_index t = Some n -> s = t.
Proof.
  intros Hs Ht.
  pose proof (canonical_lower _ Hs) as Ls.
  pose proof (canonical_lower _ Ht) as Lt.
  pose proof (array_index_canonical _ Hs) as [Ps _].
  pose proof (array_index_canonical _ Ht) as [Pt _].
  pose proof (parse_digits_bound _ Ps) as Bs.
  pose proof (parse_digits_bound _ Pt) as Bt.
  destruct (Nat.lt_trichotomy (String.length s) (String.length t))
    as [Hlt|[Heq|Hgt]].
  - exfalso. pose proof (pow10_mono _ _ Hlt) as M.
    destruct Lt as [Lt| ->]; [lia|].
    destruct s; simpl in Hlt; [discriminate Hs|lia].
  - exact (parse_digits_inj_len _ _ Heq Ps Pt).
  - exfalso. pose proof (pow10_mono _ _ Hgt) as M.
    destruct Ls as [Ls| ->]; [lia|].
    destruct t; simpl in Hgt; [discriminate Ht|lia].
Qed.

Lemma index_of_inj s t :
  is_index s = true -> is_index t = true -> index_of s = index_of t -> s = t.
Proof.
  unfold is_index, index_of.
  destruct (array_index s) as [n|] eqn:Es; [|discriminate].
  destruct (array_index t) as [m|] eqn:Et; [|discriminate].
  intros _ _ ->. exact (array_index_inj _ _ Es Et).
Qed.

End ArrayIndex.

(** ** Properties of the grouping derivation *)

Section GroupingProperties.

Lemma own_names_only_Forall options :
  own_names_only options = true ->
  Forall (fun g => inherited g = false) (group_names options).
Proof.
  unfold own_names_only, group_names. rewrite forallb_forall, Forall_forall.
  intros H g Hg. apply in_map_iff in Hg. destruct Hg as (o & <- & Ho).
  apply negb_true_iff. now apply H.
Qed.

(** C2, at the failing input: one option whose group is [constructor].
    [acc["constructor"]] is the inherited [Object] function, so no bucket
    is created and [push] is not a function: the derivation throws and no
    option is placed in any bucket. *)
Theorem groupedOptions_constructor_throws :
  groupedOptions [mkOption "a" "A" (Some "constructor")] = Throw TypeError
  /\ render (mkProps "a" [mkOption "a" "A" (Some "constructor")] None None None)
            false = Throw TypeError
  /\ instance (mount (mkProps "a" [mkOption "a" "A" (Some "constructor")]
                        None None None)) = None.
Proof. repeat split. Qed.

(** On the lists the derivation accepts, every option is in the bucket of
    its group name and in no other, and no name has two buckets. *)
Lemma groupedOptions_partition (options : list SelectOption) :
  own_names_only options = true ->
  exists acc,
    groupedOptions options = Normal acc
    /\ NoDup (map fst acc)
    /\ (forall o, In o options ->
          exists b, In (group_of o, b) acc /\ In o b)
    /\ (forall g b o, In (g, b) acc -> In o b ->
          In o options /\ g = group_of o).
Proof.
  intros H. exists (grouping options). split; [|split; [|split]].
  - now apply groupedOptions_normal, own_names_only_Forall.
  - unfold grouping. rewrite keys_buckets_of. apply first_seen_NoDup.
  - intros o Ho. exists (bucket options (group_of o)). split.
    + unfold grouping, buckets_of. apply in_map_iff.
      exists (group_of o). split; [reflexivity|].
      apply first_seen_In. unfold group_names. now apply in_map.
    + unfold bucket. apply filter_In. split; [exact Ho|apply String.eqb_refl].
  - intros g b o Hgb Ho. unfold grouping, buckets_of in Hgb.
    apply in_map_iff in Hgb. destruct Hgb as (g' & E & _).
    inversion E; subst. unfold bucket in Ho. apply filter_In in Ho.
    destruct Ho as [Ho Eg]. apply String.eqb_eq in Eg. now split.
Qed.

(** C1 as stated fails: with group names ["2"] then ["1"], the buckets
    come out as ["1"] then ["2"], not in first-seen order. *)
Lemma bucket_order_counterexample :
  let options := [mkOption "x" "X" (Some "2"); mkOption "y" "Y" (Some "1")] in
  exists acc,
    groupedOptions options = Normal acc
    /\ Object_keys acc = ["1"; "2"]
    /\ first_seen (group_names options) = ["2"; "1"]
    /\ Object_keys acc <> first_seen (group_names options).
Proof.
  eexists. split; [reflexivity|]. repeat split. discriminate.
Qed.

(** C1 (amended).  For every option list none of whose group names is a
    property inherited from [Object.prototype], the derivation returns, and
    the entries of the derived object are: first the buckets whose names
    are array indices, in strictly ascending numeric order, then the other
    buckets in the order in which their names were first seen; every
    bucket holds exactly the options of its group in their original
    relative order.  In particular, when no group name is an array index
    the buckets are in first-seen order. *)
Theorem groupedOptions_bucket_order (options : list SelectOption) :
  own_names_only options = true ->
  exists acc idx,
    groupedOptions options = Normal acc
    /\ Object_entries acc = buckets_of (Object_keys acc) options
    /\ Object_keys acc =
       idx ++ first_seen (filter (fun g => negb (is_index g)) (group_names options))
    /\ (forall g, In g idx <-> is_index g = true /\ In g (group_names options))
    /\ StronglySorted (fun a b => (index_of a < index_of b)%N) idx
    /\ (forallb (fun g => negb (is_index g)) (group_names options) = true ->
        Object_keys acc = first_seen (group_names options)).
Proof.
  intros Hsafe.
  destruct (entries_grouping options) as (idx & He & Hperm & Hsorted).
  cbv zeta in He, Hperm.
  assert (Hin : forall g, In g idx <->
                  is_index g = true /\ In g (group_names options)).
  { intros g. split.
    - intros Hg. apply (Permutation_in _ Hperm) in Hg.
      apply filter_In in Hg. destruct Hg as [Hg Hi].
      split; [exact Hi|now apply first_seen_In].
    - intros [Hi Hg]. apply (Permutation_in _ (Permutation_sym Hperm)).
      apply filter_In. split; [now apply first_seen_In|exact Hi]. }
  assert (Hkeys : Object_keys (grouping options) =
            idx ++ first_seen (filter (fun g => negb (is_index g))
                                      (group_names options))).
  { unfold Object_keys. rewrite He, keys_buckets_of, first_seen_filter.
    reflexivity. }
  exists (grouping options), idx. repeat split.
  - now apply groupedOptions_normal, own_names_only_Forall.
  - rewrite He at 1. unfold Object_keys. now rewrite He, keys_buckets_of.
  - exact Hkeys.
  - now apply Hin.
  - now apply Hin.
  - intros [Hi Hg]. now apply Hin.
  - assert (ND : NoDup idx).
    { apply (Permutation_NoDup (Permutation_sym Hperm)).
      apply NoDup_filter, first_seen_NoDup. }
    assert (Hidx : Forall (fun g => is_index g = true) idx).
    { apply Forall_forall. intros g Hg. now apply Hin. }
    clear He Hperm Hkeys Hin.
    induction Hsorted as [|a l Hs IH Ha]; constructor.
    + apply IH; [now inversion ND|now inversion Hidx].
    + inversion ND as [|? ? Hna _]; subst.
      inversion Hidx as [|? ? Hia Hil]; subst.
      rewrite Forall_forall in *. intros b Hb. specialize (Ha b Hb).
      destruct (N.eq_dec (index_of a) (index_of b)) as [E|]; [|lia].
      exfalso. apply Hna.
      assert (a = b); [|now subst].
      apply index_of_inj; [exact Hia|now apply Hil|exact E].
  - intros Hno. rewrite Hkeys.
    rewrite (filter_all_true _ (group_names options))
      by (now apply forallb_forall).
    destruct idx as [|g idx]; [reflexivity|].
    exfalso. destruct (proj1 (Hin g) (or_introl eq_refl)) as [Hi Hg].
    rewrite forallb_forall in Hno. apply Hno in Hg.
    rewrite Hi in Hg. discriminate Hg.
Qed.

Lemma groupedOptions_bucket_order_witness :
  let options := [mkOption "x" "X" (Some "2"); opt_a; mkOption "y" "Y" (Some "1");
                  opt_c; opt_b] in
  own_names_only options = true /\
  exists acc idx,
    groupedOptions options = Normal acc
    /\ Object_entries acc = buckets_of (Object_keys acc) options
    /\ Object_keys acc =
       idx ++ first_seen (filter (fun g => negb (is_index g)) (group_names options))
    /\ (forall g, In g idx <-> is_index g = true /\ In g (group_names options))
    /\ StronglySorted (fun a b => (index_of a < index_of b)%N) idx
    /\ (forallb (fun g => negb (is_index g)) (group_names options) = true ->
        Object_keys acc = first_seen (group_names options)).
Proof.
  split; [reflexivity|].
  apply groupedOptions_bucket_order. reflexivity.
Defined.

End GroupingProperties.

(** ** The trigger label *)

Section Label.

Lemma find_none_of_no_match (p : GroupedSelectProps) :
  has_match p = false -> selectedOption p = None.
Proof.
  unfold has_match, selectedOption.
  induction (p_options p) as [|o l IH]; simpl; [reflexivity|].
  destruct (value o =? p_value p)%string; simpl; [discriminate|exact IH].
Qed.

(** C6 as stated fails: a caller may pass the empty string as placeholder,
    and the trigger then shows a blank label. *)
Lemma label_fallback_counterexample :
  let p := mkProps "x" [mkOption "a" "Alpha" None] (Some "") None None in
  has_match p = false /\ selectedLabel p = "".
Proof. split; reflexivity. Qed.

(** C6 (amended).  If no option's value equals the current selected value,
    the trigger label is the placeholder text, which is ["Select..."] when
    the caller passes none; the label is blank only if the placeholder is,
    and it is the raw current value only if the placeholder is. *)
Theorem label_fallback (p : GroupedSelectProps) :
  has_match p = false ->
  selectedLabel p = placeholder p
  /\ (p_placeholder p = None -> selectedLabel p = "Select...")
  /\ (placeholder p <> "" -> selectedLabel p <> "")
  /\ (placeholder p <> p_value p -> selectedLabel p <> p_value p).
Proof.
  intros H. unfold selectedLabel. rewrite (find_none_of_no_match p H). simpl.
  repeat split; try tauto.
  unfold placeholder. now intros ->.
Qed.

Lemma label_fallback_witness :
  let p := mkProps "zzz" [opt_a; opt_b; opt_c] None None None in
  has_match p = false /\
  selectedLabel p = placeholder p
  /\ (p_placeholder p = None -> selectedLabel p = "Select...")
  /\ (placeholder p <> "" -> selectedLabel p <> "")
  /\ (placeholder p <> p_value p -> selectedLabel p <> p_value p).
Proof.
  split; [reflexivity|]. apply label_fallback. reflexivity.
Defined.

(** C10.  The label comes from the first option, in list order, whose
    value equals the current value; if that option's label is the empty
    string the trigger shows the placeholder instead. *)
Theorem selectedLabel_first_match (p : GroupedSelectProps)
    (before : list SelectOption) (o : SelectOption) (after : list SelectOption) :
  p_options p = before ++ o :: after ->
  forallb (fun x => negb (value x =? p_value p)%string) before = true ->
  (value o =? p_value p)%string = true ->
  selectedOption p = Some o
  /\ (label o = "" -> selectedLabel p = placeholder p)
  /\ (label o <> "" -> selectedLabel p = label o).
Proof.
  intros Hopts Hbefore Ho.
  assert (Hfind : selectedOption p = Some o).
  { unfold selectedOption. rewrite Hopts. clear Hopts.
    induction before as [|x l IH]; simpl in *.
    - now rewrite Ho.
    - apply andb_true_iff in Hbefore. destruct Hbefore as [Hx Hl].
      apply negb_true_iff in Hx. rewrite Hx. now apply IH. }
  unfold selectedLabel. rewrite Hfind. simpl. unfold str_or.
  repeat split.
  - now intros ->.
  - intros Hne. apply String.eqb_neq in Hne. now rewrite Hne.
Qed.

Lemma selectedLabel_first_match_witness :
  let o1 := mkOption "k" "" (Some "G") in
  let o2 := mkOption "k" "Second" None in
  let p := mkProps "k" [opt_a; o1; o2] (Some "pick") None None in
  selectedOption p = Some o1
  /\ (label o1 = "" -> selectedLabel p = placeholder p)
  /\ (label o1 <> "" -> selectedLabel p = label o1).
Proof.
  apply (@selectedLabel_first_match
           (mkProps "k" [opt_a; mkOption "k" "" (Some "G");
                         mkOption "k" "Second" None] (Some "pick") None None)
           [opt_a] (mkOption "k" "" (Some "G")) [mkOption "k" "Second" None]);
    reflexivity.
Defined.

End Label.

(** ** The transition system *)

Section Machine.

Lemma render_state_irrelevant p b b' t :
  render p b = Normal t -> exists t', render p b' = Normal t'.
Proof.
  unfold render. destruct (groupedOptions (p_options p)); simpl;
    [eauto|discriminate].
Qed.

Lemma render_closed p t : render p false = Normal t -> panel t = None.
Proof.
  unfold render. destruct (groupedOptions (p_options p)); simpl;
    [|discriminate].
  intros H. inversion H. reflexivity.
Qed.

Lemma removeEventListener_self h : removeEventListener h [h] = [].
Proof. unfold removeEventListener. simpl. now rewrite Nat.eqb_refl. Qed.

Lemma mount_consistent p : consistent (mount p).
Proof.
  unfold mount, consistent. destruct (render p false) eqn:E; simpl; eauto.
Qed.

Lemma cleanup_clears w i :
  consistent w -> instance w = Some i ->
  removeEventListener (cleanup i) (listeners w) = [].
Proof.
  unfold consistent. intros C Hi. rewrite Hi in C. destruct C as [_ ->].
  destruct (isOpen i); [apply removeEventListener_self|reflexivity].
Qed.

Lemma unmount_consistent w i :
  consistent w -> instance w = Some i -> consistent (unmount_instance i w).
Proof. intros C Hi. unfold consistent. simpl. now apply cleanup_clears. Qed.

Lemma commit_consistent w i p' open' :
  consistent w -> instance w = Some i -> consistent (commit i p' open' w).
Proof.
  intros C Hi. unfold commit.
  destruct (render p' open') as [t|e] eqn:R; [|now apply unmount_consistent].
  destruct (Bool.eqb open' (isOpen i)) eqn:E.
  - apply eqb_prop in E. subst open'. unfold consistent in *. simpl.
    rewrite Hi in C. destruct C as [_ L]. eauto.
  - unfold consistent. simpl. split; [eauto|].
    rewrite (@cleanup_clears w i C Hi). now destruct open'.
Qed.

Lemma Some_eq (A : Type) (a b : A) : Some a = Some b -> a = b.
Proof. congruence. Qed.

Lemma dispatch_consistent w i acts w' out :
  consistent w -> instance w = Some i ->
  dispatch i acts w = (w', out) -> consistent w'.
Proof.
  intros C Hi. unfold dispatch.
  destruct (Bool.eqb _ _); intros H; inversion H; subst;
    [exact C|now apply commit_consistent].
Qed.

Lemma step_consistent w e w' out :
  consistent w -> step w e = Some (w', out) -> consistent w'.
Proof.
  intros C. unfold step. destruct (instance w) as [i|] eqn:Hi.
  - destruct e as [|k|inside|p'|].
    + intros H. apply Some_eq in H. exact (@dispatch_consistent w i _ w' out C Hi H).
    + destruct (nth_error (rendered_rows i) k) as [r|]; [|discriminate].
      intros H. apply Some_eq in H. exact (@dispatch_consistent w i _ w' out C Hi H).
    + intros H. apply Some_eq in H. exact (@dispatch_consistent w i _ w' out C Hi H).
    + intros H. inversion H. now apply commit_consistent.
    + intros H. inversion H. now apply unmount_consistent.
  - destruct e; try discriminate. intros H. inversion H; subst. exact C.
Qed.

Lemma reachable_consistent w : reachable w -> consistent w.
Proof.
  induction 1 as [p|w e w' out _ IH Hs];
    [apply mount_consistent|exact (@step_consistent w e w' out IH Hs)].
Qed.

(** Closing an open, consistent instance. *)
Lemma commit_close w i :
  consistent w -> instance w = Some i -> isOpen i = true ->
  commit i (props i) false w
  = mkWorld [] (S (next_id w)) (Some (mkInstance (props i) false (next_id w))).
Proof.
  intros C Hi Ho. unfold commit.
  pose proof C as C'. unfold consistent in C'. rewrite Hi in C'.
  destruct C' as [[t Ht] _].
  destruct (@render_state_irrelevant _ _ false _ Ht) as [t' ->].
  rewrite Ho. simpl. now rewrite (@cleanup_clears w i C Hi).
Qed.

(** Opening a closed, consistent instance. *)
Lemma commit_open w i :
  consistent w -> instance w = Some i -> isOpen i = false ->
  commit i (props i) true w
  = mkWorld [next_id w] (S (next_id w))
            (Some (mkInstance (props i) true (next_id w))).
Proof.
  intros C Hi Ho. unfold commit.
  pose proof C as C'. unfold consistent in C'. rewrite Hi in C'.
  destruct C' as [[t Ht] _].
  destruct (@render_state_irrelevant _ _ true _ Ht) as [t' ->].
  rewrite Ho. simpl. now rewrite (@cleanup_clears w i C Hi).
Qed.

Lemma rows_only_when_open i k r :
  nth_error (rendered_rows i) k = Some r -> isOpen i = true.
Proof.
  unfold rendered_rows, tree_rows.
  destruct (isOpen i) eqn:Ho; [reflexivity|].
  destruct (render (props i) false) as [t|] eqn:R.
  - rewrite (@render_closed _ _ R). now destruct k.
  - now destruct k.
Qed.

(** While the panel is open, every option of the list has its row. *)
Lemma option_rows_complete (i : Instance) (o : SelectOption) :
  isOpen i = true -> own_names_only (p_options (props i)) = true ->
  In o (p_options (props i)) ->
  In (render_row (props i) o) (rendered_rows i).
Proof.
  intros Ho Hsafe Hin.
  destruct (groupedOptions_partition _ Hsafe) as (acc & Hacc & _ & Hall & _).
  destruct (Hall o Hin) as (b & Hb & Hob).
  unfold rendered_rows, render. rewrite Hacc, Ho. simpl.
  unfold tree_rows. simpl. apply in_flat_map.
  exists (render_block (props i) (group_of o, b)). split.
  - apply in_map.
    exact (Permutation_in _ (Permutation_sym (Object_entries_perm acc)) Hb).
  - simpl. now apply in_map.
Qed.

(** Every row stands for an option of the list. *)
Lemma option_rows_sound (i : Instance) (r : OptionRow) :
  own_names_only (p_options (props i)) = true ->
  In r (rendered_rows i) ->
  exists o, In o (p_options (props i)) /\ r = render_row (props i) o.
Proof.
  intros Hsafe Hr.
  destruct (groupedOptions_partition _ Hsafe) as (acc & Hacc & _ & _ & Hsound).
  unfold rendered_rows, render in Hr. rewrite Hacc in Hr. simpl in Hr.
  unfold tree_rows in Hr. simpl in Hr.
  destruct (isOpen i); [|contradiction].
  apply in_flat_map in Hr. destruct Hr as (blk & Hblk & Hr).
  apply in_map_iff in Hblk. destruct Hblk as ([g b] & <- & Hgb).
  simpl in Hr. apply in_map_iff in Hr. destruct Hr as (o & <- & Ho).
  apply (Permutation_in _ (Object_entries_perm acc)) in Hgb.
  exists o. split; [|reflexivity]. exact (proj1 (Hsound g b o Hgb Ho)).
Qed.

End Machine.

(** ** Properties of the visibility state *)

Section Visibility.

Lemma outside_actions (l : list nat) inside :
  calls (flat_map (fun _ : nat => handleClickOutside false inside) l) = [].
Proof. induction l as [|h l IH]; simpl; [reflexivity|exact IH]. Qed.

(** A press inside the widget leaves everything as it is. *)
Lemma inside_press_ignored w :
  step w (MouseDown true) = Some (w, []).
Proof.
  unfold step. destruct (instance w) as [i|].
  - assert (E : flat_map (fun _ : nat => handleClickOutside true true)
                         (listeners w) = []).
    { induction (listeners w) as [|h l IH]; simpl; [reflexivity|exact IH]. }
    rewrite E. unfold dispatch. simpl. now rewrite eqb_reflx.
  - now rewrite outside_actions.
Qed.

(** One activation of an enabled trigger flips the state. *)
Lemma trigger_toggles w i :
  consistent w -> instance w = Some i -> disabled (props i) = false ->
  exists w1 i1,
    step w TriggerClick = Some (w1, [])
    /\ instance w1 = Some i1 /\ props i1 = props i
    /\ isOpen i1 = negb (isOpen i) /\ consistent w1.
Proof.
  intros C Hi Hd.
  assert (Hs : step w TriggerClick
               = Some (commit i (props i) (negb (isOpen i)) w, [])).
  { unfold step, dispatch, triggerOnClick. rewrite Hi, Hd. simpl.
    now destruct (isOpen i). }
  exists (commit i (props i) (negb (isOpen i)) w).
  destruct (isOpen i) eqn:Ho; simpl in *.
  - rewrite (@commit_close w i C Hi Ho) in *. eexists.
    split; [exact Hs|]. do 3 (split; [reflexivity|]).
    exact (@step_consistent w _ _ _ C Hs).
  - rewrite (@commit_open w i C Hi Ho) in *. eexists.
    split; [exact Hs|]. do 3 (split; [reflexivity|]).
    exact (@step_consistent w _ _ _ C Hs).
Qed.

(** C3.  Whenever the render tree holds an option row [r] at position [k],
    the panel is open, and activating that row calls [onChange] exactly
    once, with the row's value, and closes the panel.  Nothing else of the
    instance changes: it stays mounted with the same props; closing runs
    the effect's cleanup, which removes the document listener. *)
Theorem row_activation (w : World) (k : nat) (r : OptionRow) :
  nth_error (world_rows w) k = Some r ->
  exists i w',
    instance w = Some i /\ visible w = true
    /\ step w (RowClick k) = Some (w', [row_value r])
    /\ visible w' = false
    /\ w' = mkWorld (removeEventListener (cleanup i) (listeners w))
                    (S (next_id w))
                    (Some (mkInstance (props i) false (next_id w))).
Proof.
  unfold world_rows, visible. destruct (instance w) as [i|] eqn:Hi;
    [|destruct k; discriminate].
  intros Hk. pose proof (@rows_only_when_open i k r Hk) as Ho.
  assert (R : exists t, render (props i) (isOpen i) = Normal t).
  { unfold rendered_rows in Hk.
    destruct (render (props i) (isOpen i)); [eauto|destruct k; discriminate]. }
  destruct R as [t R].
  destruct (@render_state_irrelevant _ _ false _ R) as [t' R'].
  exists i. eexists. repeat split; [exact Ho| |reflexivity].
  unfold step. rewrite Hi, Hk. unfold dispatch, handleSelect, commit.
  simpl. rewrite Ho. simpl. rewrite R'. reflexivity.
Qed.

Lemma row_activation_witness :
  let w := mkWorld [1] 2 (Some (mkInstance props1 true 1)) in
  nth_error (world_rows w) 1 = Some (mkRow "b" "Beta" false) /\
  exists i w',
    instance w = Some i /\ visible w = true
    /\ step w (RowClick 1) = Some (w', ["b"])
    /\ visible w' = false
    /\ w' = mkWorld (removeEventListener (cleanup i) (listeners w))
                    (S (next_id w))
                    (Some (mkInstance (props i) false (next_id w))).
Proof.
  split; [reflexivity|].
  apply (@row_activation (mkWorld [1] 2 (Some (mkInstance props1 true 1)))
                         1 (mkRow "b" "Beta" false)).
  reflexivity.
Defined.

(** C4.  In every reachable world whose panel is open, a press whose
    target lies outside the widget closes the panel and calls [onChange]
    not at all; the instance stays mounted with the same props. *)
Theorem outside_press_closes (w : World) :
  reachable w -> visible w = true ->
  exists i w',
    instance w = Some i
    /\ step w (MouseDown false) = Some (w', [])
    /\ visible w' = false
    /\ w' = mkWorld [] (S (next_id w))
                    (Some (mkInstance (props i) false (next_id w))).
Proof.
  intros Hr Hv. pose proof (reachable_consistent Hr) as C.
  unfold visible in Hv. destruct (instance w) as [i|] eqn:Hi; [|discriminate].
  exists i. eexists. repeat split; [|reflexivity].
  pose proof C as C'. unfold consistent in C'. rewrite Hi, Hv in C'.
  destruct C' as [_ L].
  unfold step. rewrite Hi, L. simpl. unfold dispatch. simpl. rewrite Hv. simpl.
  now rewrite (@commit_close w i C Hi Hv).
Qed.

Lemma outside_press_closes_witness :
  let w := mkWorld [1] 2 (Some (mkInstance props1 true 1)) in
  reachable w /\ visible w = true /\
  exists i w',
    instance w = Some i
    /\ step w (MouseDown false) = Some (w', [])
    /\ visible w' = false
    /\ w' = mkWorld [] (S (next_id w))
                    (Some (mkInstance (props i) false (next_id w))).
Proof.
  assert (R : reachable (mkWorld [1] 2 (Some (mkInstance props1 true 1)))).
  { apply (@reach_step (mount props1) TriggerClick _ []);
      [apply reach_mount|reflexivity]. }
  split; [exact R|]. split; [reflexivity|].
  apply outside_press_closes; [exact R|reflexivity].
Defined.

(** C5.  With the disabled flag set, any number of trigger activations
    returns the world as it was: the visibility state is unchanged (a
    closed panel remains closed) and [onChange] is never called. *)
Theorem disabled_trigger_inert (w : World) (i : Instance) (n : nat) :
  instance w = Some i -> disabled (props i) = true ->
  exists w',
    run w (repeat TriggerClick n) = Some (w', [])
    /\ w' = w
    /\ visible w' = visible w
    /\ (visible w = false -> visible w' = false).
Proof.
  intros Hi Hd. exists w. repeat split; [|tauto].
  assert (Hs : step w TriggerClick = Some (w, [])).
  { unfold step, dispatch, triggerOnClick. rewrite Hi, Hd. simpl.
    now rewrite eqb_reflx. }
  induction n as [|n IH]; simpl; [reflexivity|].
  now rewrite Hs, IH.
Qed.

Lemma disabled_trigger_inert_witness :
  let p := mkProps "c" [opt_a; opt_b; opt_c] None None (Some true) in
  instance (mount p) = Some (mkInstance p false 0) /\
  disabled p = true /\
  exists w',
    run (mount p) (repeat TriggerClick 5) = Some (w', [])
    /\ w' = mount p
    /\ visible w' = visible (mount p)
    /\ (visible (mount p) = false -> visible w' = false).
Proof.
  split; [reflexivity|]. split; [reflexivity|].
  apply (@disabled_trigger_inert
           (mount (mkProps "c" [opt_a; opt_b; opt_c] None None (Some true)))
           (mkInstance (mkProps "c" [opt_a; opt_b; opt_c] None None (Some true))
                       false 0) 5); reflexivity.
Defined.

(** C7.  Whenever the visibility state is Closed, the render tree has no
    panel and no option row, and no row activation can happen. *)
Theorem closed_panel_absent (w : World) :
  visible w = false ->
  world_rows w = []
  /\ (forall k, step w (RowClick k) = None)
  /\ (forall i t, instance w = Some i ->
        render (props i) (isOpen i) = Normal t ->
        panel t = None /\ tree_rows t = []).
Proof.
  unfold visible, world_rows, step.
  destruct (instance w) as [i|] eqn:Hi; intros Hv.
  - assert (Hrows : rendered_rows i = []).
    { unfold rendered_rows, tree_rows. rewrite Hv.
      destruct (render (props i) false) as [t|] eqn:R; [|reflexivity].
      now rewrite (@render_closed _ _ R). }
    rewrite Hrows. repeat split.
    + intros k. now destruct k.
    + inversion H; subst. rewrite Hv in H0. exact (@render_closed _ _ H0).
    + inversion H; subst. rewrite Hv in H0. unfold tree_rows.
      now rewrite (@render_closed _ _ H0).
  - repeat split; discriminate.
Qed.

Lemma closed_panel_absent_witness :
  visible (mount props1) = false /\
  world_rows (mount props1) = []
  /\ (forall k, step (mount props1) (RowClick k) = None)
  /\ (forall i t, instance (mount props1) = Some i ->
        render (props i) (isOpen i) = Normal t ->
        panel t = None /\ tree_rows t = []).
Proof.
  split; [reflexivity|]. apply closed_panel_absent. reflexivity.
Defined.

(** C8.  In every reachable world the document listener is installed if
    and only if the panel is open; the document never holds more than one
    listener of the widget, and none once the component is unmounted. *)
Theorem listener_lockstep (w : World) :
  reachable w ->
  installed w = visible w
  /\ (List.length (listeners w) <= 1)%nat
  /\ (instance w = None -> listeners w = []).
Proof.
  intros Hr. pose proof (reachable_consistent Hr) as C.
  unfold consistent in C. unfold installed, visible.
  destruct (instance w) as [i|].
  - destruct C as [_ ->]. destruct (isOpen i); simpl; repeat split;
      try lia; discriminate.
  - rewrite C. simpl. repeat split; lia.
Qed.

Lemma listener_lockstep_witness :
  let w := mkWorld [3] 4 (Some (mkInstance props1 true 3)) in
  reachable w /\
  installed w = visible w
  /\ (List.length (listeners w) <= 1)%nat
  /\ (instance w = None -> listeners w = []).
Proof.
  assert (R : reachable (mkWorld [3] 4 (Some (mkInstance props1 true 3)))).
  { apply (@reach_step (mkWorld [] 3 (Some (mkInstance props1 false 2)))
                       TriggerClick _ []); [|reflexivity].
    apply (@reach_step (mkWorld [1] 2 (Some (mkInstance props1 true 1)))
                       (MouseDown false) _ []); [|reflexivity].
    apply (@reach_step (mount props1) TriggerClick _ []);
      [apply reach_mount|reflexivity]. }
  split; [exact R|]. apply listener_lockstep. exact R.
Defined.

(** C9.  The visibility state starts Closed; in a reachable world, one
    activation of an enabled trigger flips it, and a second one restores
    it. *)
Theorem toggle_twice (w : World) (i : Instance) :
  reachable w -> instance w = Some i -> disabled (props i) = false ->
  (forall p, visible (mount p) = false)
  /\ exists w1 w2,
       step w TriggerClick = Some (w1, [])
       /\ visible w1 = negb (visible w)
       /\ step w1 TriggerClick = Some (w2, [])
       /\ visible w2 = visible w.
Proof.
  intros Hr Hi Hd. split.
  - intros p. unfold mount, visible. now destruct (render p false).
  - pose proof (reachable_consistent Hr) as C.
    destruct (@trigger_toggles w i C Hi Hd)
      as (w1 & i1 & S1 & Hi1 & P1 & O1 & C1).
    assert (Hd1 : disabled (props i1) = false) by now rewrite P1.
    destruct (@trigger_toggles w1 i1 C1 Hi1 Hd1)
      as (w2 & i2 & S2 & Hi2 & P2 & O2 & C2).
    exists w1, w2. unfold visible. rewrite Hi, Hi1, Hi2, O2, O1.
    repeat split; try assumption. apply negb_involutive.
Qed.

Lemma toggle_twice_witness :
  reachable (mount props1) /\
  instance (mount props1) = Some (mkInstance props1 false 0) /\
  disabled props1 = false /\
  (forall p, visible (mount p) = false)
  /\ exists w1 w2,
       step (mount props1) TriggerClick = Some (w1, [])
       /\ visible w1 = negb (visible (mount props1))
       /\ step w1 TriggerClick = Some (w2, [])
       /\ visible w2 = visible (mount props1).
Proof.
  split; [apply reach_mount|]. split; [reflexivity|]. split; [reflexivity|].
  apply (@toggle_twice (mount props1) (mkInstance props1 false 0));
    [apply reach_mount|reflexivity|reflexivity].
Defined.

End Visibility.

(** ** Further properties of the grouping derivation and of the panel *)

Section Buckets.

Lemma own_names_only_false options :
  own_names_only options = false ->
  Exists (fun g => inherited g = true) (group_names options).
Proof.
  unfold own_names_only, group_names.
  induction options as [|o l IH]; simpl; [discriminate|].
  destruct (inherited (group_of o)) eqn:E; simpl.
  - intros _. now constructor.
  - intros H. apply Exists_cons_tl. now apply IH.
Qed.

Lemma groupedOptions_cases options :
  groupedOptions options =
  if own_names_only options then Normal (grouping options) else Throw TypeError.
Proof.
  destruct (own_names_only options) eqn:E.
  - now apply groupedOptions_normal, own_names_only_Forall.
  - now apply groupedOptions_throws, own_names_only_false.
Qed.

Lemma render_cases p b :
  render p b =
  if own_names_only (p_options p)
  then Normal (mkTree (selectedLabel p) (disabled p) b
                 (if b then Some (map (render_block p)
                                      (Object_entries (grouping (p_options p))))
                  else None))
  else Throw TypeError.
Proof.
  unfold render. rewrite groupedOptions_cases.
  now destruct (own_names_only (p_options p)).
Qed.

Lemma bucket_cons o l g :
  bucket (o :: l) g =
  if (group_of o =? g)%string then o :: bucket l g else bucket l g.
Proof. reflexivity. Qed.

Lemma flat_map_bucket_skip o l keys :
  ~ In (group_of o) keys ->
  flat_map (bucket (o :: l)) keys = flat_map (bucket l) keys.
Proof.
  induction keys as [|k ks IH]; cbn [flat_map In]; [reflexivity|]. intros Hn.
  rewrite bucket_cons.
  destruct (String.eqb_spec (group_of o) k) as [E|_];
    [exfalso; apply Hn; left; now symmetry|].
  f_equal. apply IH. tauto.
Qed.

Lemma flat_map_bucket_cons o l keys :
  NoDup keys -> In (group_of o) keys ->
  Permutation (flat_map (bucket (o :: l)) keys) (o :: flat_map (bucket l) keys).
Proof.
  induction 1 as [|k ks Hk ND IH]; cbn [flat_map In]; [tauto|]. intros Hin.
  rewrite bucket_cons.
  destruct (String.eqb_spec (group_of o) k) as [E|Hne].
  - subst k. rewrite flat_map_bucket_skip by exact Hk. reflexivity.
  - destruct Hin as [E|Hin]; [congruence|].
    apply (Permutation_trans
             (Permutation_app_head (bucket l k) (IH Hin))).
    apply Permutation_sym, Permutation_middle.
Qed.

(** The buckets of a duplicate-free list of names that covers the group
    names of [l] hold the options of [l], each once. *)
Lemma flat_map_bucket_perm l keys :
  NoDup keys -> (forall o, In o l -> In (group_of o) keys) ->
  Permutation (flat_map (bucket l) keys) l.
Proof.
  intros ND. induction l as [|o l IH]; intros Hcov.
  - assert (E : flat_map (bucket []) keys = []).
    { clear. induction keys as [|k ks IH]; simpl; [reflexivity|exact IH]. }
    now rewrite E.
  - rewrite flat_map_bucket_cons; [|exact ND|apply Hcov; now left].
    constructor. apply IH. intros x Hx. apply Hcov. now right.
Qed.

Lemma flat_map_snd_buckets_of keys l :
  flat_map snd (buckets_of keys l) = flat_map (bucket l) keys.
Proof.
  unfold buckets_of. induction keys as [|k ks IH]; simpl; [reflexivity|].
  now rewrite IH.
Qed.

Lemma grouping_perm options :
  Permutation (flat_map snd (grouping options)) options.
Proof.
  unfold grouping. rewrite flat_map_snd_buckets_of.
  apply flat_map_bucket_perm; [apply first_seen_NoDup|].
  intros o Ho. apply first_seen_In. unfold group_names. now apply in_map.
Qed.

Lemma rows_of_entries p (es : list (string * list SelectOption)) :
  flat_map block_rows (map (render_block p) es)
  = map (render_row p) (flat_map snd es).
Proof.
  induction es as [|e es IH]; simpl; [reflexivity|].
  now rewrite map_app, IH.
Qed.

(** The rows of an open panel are the rows of the options, rearranged. *)
Lemma tree_rows_perm p t :
  render p true = Normal t ->
  Permutation (tree_rows t) (map (render_row p) (p_options p)).
Proof.
  rewrite render_cases. destruct (own_names_only (p_options p)); [|discriminate].
  intros H. inversion H; subst. unfold tree_rows. simpl.
  rewrite rows_of_entries. apply Permutation_map.
  rewrite (Permutation_flat_map snd (Object_entries_perm _)).
  apply grouping_perm.
Qed.

Lemma bucket_nonempty options g :
  In g (group_names options) -> bucket options g <> [].
Proof.
  unfold group_names, bucket. intros H. apply in_map_iff in H.
  destruct H as (o & <- & Ho). intros E.
  assert (Hin : In o (filter (fun o' => (group_of o' =? group_of o)%string) options)).
  { apply filter_In. split; [exact Ho|apply String.eqb_refl]. }
  rewrite E in Hin. exact Hin.
Qed.

Lemma group_of_nonblank o : group_of o <> "".
Proof.
  unfold group_of, opt_str_or, str_or. destruct (group o) as [g|]; [|discriminate].
  destruct (String.eqb_spec g ""); [discriminate|assumption].
Qed.

Lemma existsb_false_filter (A : Type) (f : A -> bool) (l : list A) :
  existsb f l = false -> filter f l = [].
Proof.
  induction l as [|a l IH]; simpl; [reflexivity|].
  destruct (f a); simpl; [discriminate|exact IH].
Qed.

(** X1.  The derivation throws [TypeError] exactly when some option's
    group name is a property name inherited from [Object.prototype];
    on every other list it returns the object that holds one bucket per
    distinct group name, created in order of first occurrence. *)
Theorem groupedOptions_outcome (options : list SelectOption) :
  (groupedOptions options = Throw TypeError
     <-> exists o, In o options /\ inherited (group_of o) = true)
  /\ ((forall o, In o options -> inherited (group_of o) = false)
        -> groupedOptions options = Normal (grouping options))
  /\ (groupedOptions options = Throw TypeError
      \/ groupedOptions options = Normal (grouping options)).
Proof.
  rewrite groupedOptions_cases.
  assert (Hf : own_names_only options = true <->
               forall o, In o options -> inherited (group_of o) = false).
  { unfold own_names_only. rewrite forallb_forall. split; intros H o Ho.
    - apply negb_true_iff. now apply H.
    - apply negb_true_iff. now apply H. }
  destruct (own_names_only options) eqn:E; repeat split; auto.
  - discriminate.
  - intros (o & Ho & Hi). rewrite (proj1 Hf eq_refl o Ho) in Hi. discriminate.
  - intros _. apply own_names_only_false in E. apply Exists_exists in E.
    destruct E as (g & Hg & Hi). unfold group_names in Hg.
    apply in_map_iff in Hg. destruct Hg as (o & <- & Ho). eauto.
  - intros H. apply Hf in H. discriminate.
Qed.

(** X2.  On a list the derivation accepts, the buckets partition the
    options: no name has two buckets, every option of a bucket has the
    bucket's name as its group, and the buckets together hold the options
    of the list, each exactly as often as the list does. *)
Theorem groupedOptions_exact_partition (options : list SelectOption) :
  own_names_only options = true ->
  exists acc,
    groupedOptions options = Normal acc
    /\ NoDup (map fst acc)
    /\ Forall (fun kv => Forall (fun o => group_of o = fst kv) (snd kv)) acc
    /\ Permutation (flat_map snd acc) options.
Proof.
  intros H. exists (grouping options). repeat split.
  - rewrite groupedOptions_cases. now rewrite H.
  - unfold grouping. rewrite keys_buckets_of. apply first_seen_NoDup.
  - unfold grouping, buckets_of. apply Forall_forall. intros kv Hkv.
    apply in_map_iff in Hkv. destruct Hkv as (g & <- & _). simpl.
    apply Forall_forall. intros o Ho. unfold bucket in Ho.
    apply filter_In in Ho. now apply String.eqb_eq.
  - apply grouping_perm.
Qed.

Lemma groupedOptions_exact_partition_witness :
  let options := [opt_a; opt_c; opt_b; opt_c] in
  own_names_only options = true /\
  exists acc,
    groupedOptions options = Normal acc
    /\ NoDup (map fst acc)
    /\ Forall (fun kv => Forall (fun o => group_of o = fst kv) (snd kv)) acc
    /\ Permutation (flat_map snd acc) options.
Proof.
  split; [reflexivity|]. apply groupedOptions_exact_partition. reflexivity.
Defined.

(** X3.  When the panel is rendered open, its option rows are the rows of
    the options of the list, rearranged: every option has its row, no
    option is dropped and none is shown twice. *)
Theorem open_panel_rows (p : GroupedSelectProps) (t : Tree) :
  render p true = Normal t ->
  Permutation (tree_rows t) (map (render_row p) (p_options p))
  /\ List.length (tree_rows t) = List.length (p_options p).
Proof.
  intros H. pose proof (tree_rows_perm _ H) as P. split; [exact P|].
  rewrite (Permutation_length P). apply length_map.
Qed.

Lemma open_panel_rows_witness :
  exists t,
    render props1 true = Normal t /\
    Permutation (tree_rows t) (map (render_row props1) (p_options props1))
    /\ List.length (tree_rows t) = List.length (p_options props1).
Proof.
  eexists. split; [reflexivity|]. apply open_panel_rows. reflexivity.
Defined.

(** X4.  In an open panel, as many rows carry the selected mark as there
    are options whose value equals the current value: none when no option
    matches, and all of them when several options share that value. *)
Theorem selected_rows_count (p : GroupedSelectProps) (t : Tree) :
  render p true = Normal t ->
  List.length (filter row_selected (tree_rows t))
  = List.length (filter (fun o => (value o =? p_value p)%string) (p_options p))
  /\ (has_match p = false -> filter row_selected (tree_rows t) = []).
Proof.
  intros H. pose proof (tree_rows_perm _ H) as P.
  assert (E : forall l, filter row_selected (map (render_row p) l)
              = map (render_row p)
                    (filter (fun o => (value o =? p_value p)%string) l)).
  { induction l as [|o l IH]; simpl; [reflexivity|].
    destruct (value o =? p_value p)%string; simpl; now rewrite IH. }
  assert (L : List.length (filter row_selected (tree_rows t))
              = List.length (filter (fun o => (value o =? p_value p)%string)
                                    (p_options p))).
  { assert (Pf : Permutation (filter row_selected (tree_rows t))
                   (filter row_selected (map (render_row p) (p_options p)))).
    { clear -P. induction P; simpl.
      - constructor.
      - destruct (row_selected x); [now constructor|assumption].
      - destruct (row_selected x), (row_selected y);
          try reflexivity. apply perm_swap.
      - now transitivity (filter row_selected l'). }
    rewrite (Permutation_length Pf), E. apply length_map. }
  split; [exact L|].
  intros Hm.
  assert (Z : filter (fun o => (value o =? p_value p)%string) (p_options p) = []).
  { apply existsb_false_filter. exact Hm. }
  rewrite Z in L. simpl in L.
  destruct (filter row_selected (tree_rows t)); [reflexivity|discriminate].
Qed.

Lemma selected_rows_count_witness :
  let p := mkProps "k" [mkOption "k" "One" (Some "7"); opt_a;
                        mkOption "k" "Two" None] None None None in
  exists t,
    render p true = Normal t /\
    List.length (filter row_selected (tree_rows t))
    = List.length (filter (fun o => (value o =? p_value p)%string) (p_options p))
    /\ (has_match p = false -> filter row_selected (tree_rows t) = []).
Proof.
  eexists. split; [reflexivity|]. apply selected_rows_count. reflexivity.
Defined.

(** X5.  Every group block of an open panel has a non-empty header and at
    least one option row, and no two blocks have the same header. *)
Theorem panel_blocks_wellformed (p : GroupedSelectProps) (t : Tree) :
  render p true = Normal t ->
  exists blocks,
    panel t = Some blocks
    /\ NoDup (map block_header blocks)
    /\ Forall (fun b => block_header b <> "" /\ block_rows b <> []) blocks.
Proof.
  rewrite render_cases. destruct (own_names_only (p_options p)); [|discriminate].
  intros H. inversion H; subst. simpl. eexists. split; [reflexivity|].
  set (acc := grouping (p_options p)).
  assert (Hacc : forall kv, In kv acc ->
            In (fst kv) (group_names (p_options p))
            /\ snd kv = bucket (p_options p) (fst kv)).
  { intros kv Hkv. unfold acc, grouping, buckets_of in Hkv.
    apply in_map_iff in Hkv. destruct Hkv as (g & <- & Hg). simpl.
    split; [now apply first_seen_In|reflexivity]. }
  split.
  - rewrite map_map. simpl.
    apply (Permutation_NoDup
             (Permutation_sym (Permutation_map fst (Object_entries_perm acc)))).
    unfold acc, grouping. rewrite keys_buckets_of. apply first_seen_NoDup.
  - apply Forall_forall. intros b Hb. apply in_map_iff in Hb.
    destruct Hb as (kv & <- & Hkv).
    apply (Permutation_in _ (Object_entries_perm acc)) in Hkv.
    destruct (Hacc kv Hkv) as [Hname Hsnd]. simpl. split.
    + unfold group_names in Hname. apply in_map_iff in Hname.
      destruct Hname as (o & <- & _). apply group_of_nonblank.
    + rewrite Hsnd. intros E. apply map_eq_nil in E.
      exact (bucket_nonempty _ _ Hname E).
Qed.

Lemma panel_blocks_wellformed_witness :
  exists t,
    render props1 true = Normal t /\
    exists blocks,
      panel t = Some blocks
      /\ NoDup (map block_header blocks)
      /\ Forall (fun b => block_header b <> "" /\ block_rows b <> []) blocks.
Proof.
  eexists. split; [reflexivity|].
  apply panel_blocks_wellformed with (p := props1). reflexivity.
Defined.

End Buckets.

(** ** Further properties of the label and of the transition system *)

Section Behaviour.

Lemma group_of_Other o :
  group_of o = "Other" <-> defaults_to_Other o = true.
Proof.
  unfold group_of, defaults_to_Other, opt_str_or, str_or.
  destruct (group o) as [g|]; [|tauto].
  destruct (String.eqb_spec g "") as [->|Hne]; simpl; [tauto|].
  now rewrite String.eqb_eq.
Qed.

Lemma pending_outside (l : list nat) attached inside cur :
  pending (flat_map (fun _ : nat => handleClickOutside attached inside) l) cur
  = cur && (match l with [] => true | _ => negb (attached && negb inside) end).
Proof.
  unfold handleClickOutside.
  destruct (attached && negb inside); simpl.
  - revert cur. induction l as [|h l IH]; intros cur; simpl.
    + now rewrite andb_true_r.
    + unfold pending in *. simpl. rewrite IH. simpl.
      now rewrite andb_false_r.
  - assert (E : flat_map (fun _ : nat => @nil Action) l = []).
    { induction l as [|h l IH]; simpl; [reflexivity|exact IH]. }
    rewrite E. simpl. destruct l; now rewrite andb_true_r.
Qed.

Lemma calls_outside (l : list nat) attached inside :
  calls (flat_map (fun _ : nat => handleClickOutside attached inside) l) = [].
Proof.
  unfold handleClickOutside. destruct (attached && negb inside);
    induction l as [|h l IH]; simpl; auto.
Qed.

(** What [onChange] receives in one step. *)
Lemma step_out w e w' out :
  step w e = Some (w', out) ->
  match e with
  | RowClick k =>
      exists r, nth_error (world_rows w) k = Some r /\ out = [row_value r]
  | _ => out = []
  end.
Proof.
  unfold step, world_rows. destruct (instance w) as [i|].
  - destruct e as [|k|inside|p'|]; unfold dispatch.
    + intros H. inversion H. unfold triggerOnClick.
      now destruct (negb (disabled (props i))).
    + destruct (nth_error (rendered_rows i) k) as [r|]; [|discriminate].
      intros H. inversion H. eauto.
    + intros H. inversion H. apply calls_outside.
    + intros H. now inversion H.
    + intros H. now inversion H.
  - destruct e; try discriminate. intros H. inversion H. apply calls_outside.
Qed.


Lemma toggles_compose n : forall w i,
  consistent w -> instance w = Some i -> disabled (props i) = false ->
  exists w',
    run w (repeat TriggerClick n) = Some (w', [])
    /\ visible w' = (if Nat.even n then visible w else negb (visible w)).
Proof.
  induction n as [|n IH]; intros w i C Hi Hd.
  - exists w. split; reflexivity.
  - destruct (@trigger_toggles w i C Hi Hd)
      as (w1 & i1 & S1 & Hi1 & P1 & O1 & C1).
    assert (Hd1 : disabled (props i1) = false) by now rewrite P1.
    destruct (IH w1 i1 C1 Hi1 Hd1) as (w' & R & V).
    exists w'. cbn [repeat run]. rewrite S1, R. split; [reflexivity|].
    rewrite V. unfold visible. rewrite Hi, Hi1, O1.
    rewrite Nat.even_succ, <- Nat.negb_even.
    destruct (Nat.even n); [reflexivity|apply negb_involutive].
Qed.

(** X6.  The trigger label is either the placeholder or the non-empty
    label of an option of the list whose value equals the current value;
    so it is blank only when the placeholder is. *)
Theorem selectedLabel_origin (p : GroupedSelectProps) :
  (selectedLabel p = placeholder p
   \/ exists o, In o (p_options p) /\ value o = p_value p
                /\ label o <> "" /\ selectedLabel p = label o)
  /\ (selectedLabel p = "" -> placeholder p = "").
Proof.
  unfold selectedLabel, selectedOption.
  destruct (find _ (p_options p)) as [o|] eqn:F; simpl.
  - apply find_some in F. destruct F as [Hin Hv]. apply String.eqb_eq in Hv.
    unfold str_or. destruct (String.eqb_spec (label o) "") as [E|Hne].
    + split; [now left|tauto].
    + split; [right; exists o; tauto|]. intros E. contradiction.
  - split; [now left|tauto].
Qed.

(** X7.  From a closed panel, the only event that opens it is an
    activation of the trigger while the widget is not disabled. *)
Theorem only_trigger_opens (w : World) (e : Event) (w' : World)
    (out : list string) :
  visible w = false -> step w e = Some (w', out) -> visible w' = true ->
  e = TriggerClick
  /\ exists i, instance w = Some i /\ disabled (props i) = false.
Proof.
  unfold visible at 1, step. destruct (instance w) as [i|] eqn:Hi.
  - intros Hc. destruct e as [|k|inside|p'|].
    + unfold dispatch, triggerOnClick.
      destruct (disabled (props i)) eqn:Hd; simpl.
      * rewrite eqb_reflx. intros H Hv. inversion H; subst.
        unfold visible in Hv. rewrite Hi, Hc in Hv. discriminate.
      * intros _ _. split; [reflexivity|eauto].
    + destruct (nth_error (rendered_rows i) k) as [r|] eqn:Hk; [|discriminate].
      apply rows_only_when_open in Hk. congruence.
    + unfold dispatch. rewrite pending_outside, Hc. simpl.
      intros H Hv. inversion H; subst.
      unfold visible in Hv. rewrite Hi, Hc in Hv. discriminate.
    + unfold commit. intros H Hv. inversion H; subst. clear H.
      destruct (render p' (isOpen i)); [|discriminate Hv].
      rewrite eqb_reflx in Hv. unfold visible in Hv. simpl in Hv. congruence.
    + intros H Hv. inversion H; subst. discriminate Hv.
  - intros _. destruct e; try discriminate.
    intros H Hv. inversion H; subst. unfold visible in Hv.
    rewrite Hi in Hv. discriminate.
Qed.

Lemma only_trigger_opens_witness :
  visible (mount props1) = false /\
  step (mount props1) TriggerClick
  = Some (mkWorld [1] 2 (Some (mkInstance props1 true 1)), []) /\
  visible (mkWorld [1] 2 (Some (mkInstance props1 true 1))) = true /\
  TriggerClick = TriggerClick
  /\ exists i, instance (mount props1) = Some i /\ disabled (props i) = false.
Proof.
  split; [reflexivity|]. split; [reflexivity|]. split; [reflexivity|].
  apply (@only_trigger_opens (mount props1) TriggerClick
           (mkWorld [1] 2 (Some (mkInstance props1 true 1))) []);
    reflexivity.
Defined.



(** X9.  Over any sequence of events that runs, [onChange] is called
    exactly once per row activation and never otherwise. *)
Theorem onChange_once_per_row_click (es : list Event) (w w' : World)
    (out : list string) :
  run w es = Some (w', out) -> List.length out = row_clicks es.
Proof.
  revert w out. induction es as [|e es IH]; intros w out; cbn [run].
  - intros H. now inversion H.
  - destruct (step w e) as [[w1 out1]|] eqn:S1; [|discriminate].
    destruct (run w1 es) as [[w2 out2]|] eqn:R; [|discriminate].
    intros H. inversion H; subst. rewrite length_app, (IH _ _ R).
    pose proof (step_out _ _ S1) as Hout. unfold row_clicks.
    destruct e; simpl; try (rewrite Hout; reflexivity).
    destruct Hout as (r & _ & ->). reflexivity.
Qed.

Lemma onChange_once_per_row_click_witness :
  run (mount props1)
      [TriggerClick; MouseDown true; RowClick 0; TriggerClick; RowClick 2;
       MouseDown false]
  = Some (mkWorld [] 5 (Some (mkInstance props1 false 4)), ["a"; "c"])
  /\ List.length ["a"; "c"]
     = row_clicks [TriggerClick; MouseDown true; RowClick 0; TriggerClick;
                   RowClick 2; MouseDown false].
Proof.
  split; [reflexivity|].
  apply (@onChange_once_per_row_click _ (mount props1)
           (mkWorld [] 5 (Some (mkInstance props1 false 4)))).
  reflexivity.
Defined.



(** X11.  New props from the parent never touch the visibility state or
    the document listener: an open panel stays open, with the listener the
    effect installed, also when the new props set [disabled].  Only a list
    with a group name inherited from [Object.prototype] ends the instance:
    the render throws, the component is unmounted and its listener
    removed. *)
Theorem rerender_keeps_visibility (w : World) (i : Instance)
    (p' : GroupedSelectProps) :
  reachable w -> instance w = Some i ->
  step w (Rerender p')
  = Some (if own_names_only (p_options p')
          then mkWorld (listeners w) (next_id w)
                       (Some (mkInstance p' (isOpen i) (cleanup i)))
          else mkWorld [] (next_id w) None,
          []).
Proof.
  intros Hr Hi. pose proof (reachable_consistent Hr) as C.
  unfold step, commit. rewrite Hi, render_cases.
  destruct (own_names_only (p_options p')).
  - now rewrite eqb_reflx.
  - unfold unmount_instance. now rewrite (@cleanup_clears w i C Hi).
Qed.

Lemma rerender_keeps_visibility_witness :
  let w := mkWorld [1] 2 (Some (mkInstance props1 true 1)) in
  let p' := mkProps "a" [opt_a] None None (Some true) in
  reachable w /\ instance w = Some (mkInstance props1 true 1) /\
  step w (Rerender p')
  = Some (if own_names_only (p_options p')
          then mkWorld (listeners w) (next_id w)
                       (Some (mkInstance p' true 1))
          else mkWorld [] (next_id w) None,
          []).
Proof.
  assert (R : reachable (mkWorld [1] 2 (Some (mkInstance props1 true 1)))).
  { apply (@reach_step (mount props1) TriggerClick _ []);
      [apply reach_mount|reflexivity]. }
  split; [exact R|]. split; [reflexivity|].
  apply (@rerender_keeps_visibility
           (mkWorld [1] 2 (Some (mkInstance props1 true 1)))
           (mkInstance props1 true 1)); [exact R|reflexivity].
Defined.

(** X12.  A press while the panel is closed, or a press inside the widget
    while it is open, changes nothing and calls nothing. *)
Theorem press_ignored (w : World) (inside : bool) :
  visible w = false \/ inside = true ->
  step w (MouseDown inside) = Some (w, []).
Proof.
  intros [Hc| ->]; [|apply inside_press_ignored].
  unfold step, visible in *. destruct (instance w) as [i|].
  - unfold dispatch. rewrite pending_outside, calls_outside, Hc. reflexivity.
  - now rewrite calls_outside.
Qed.

Lemma press_ignored_witness :
  (visible (mount props1) = false \/ false = true) /\
  step (mount props1) (MouseDown false) = Some (mount props1, []).
Proof.
  split; [left; reflexivity|].
  apply press_ignored. left. reflexivity.
Defined.

(** X13.  With an empty option list the render never throws: the trigger
    shows the placeholder, and the open panel has no group block. *)
Theorem render_empty_options (p : GroupedSelectProps) (b : bool) :
  p_options p = [] ->
  render p b = Normal (mkTree (placeholder p) (disabled p) b
                              (if b then Some [] else None)).
Proof.
  intros H. unfold render, selectedLabel, selectedOption. rewrite H.
  reflexivity.
Qed.

Lemma render_empty_options_witness :
  let p := mkProps "" [] None None None in
  p_options p = [] /\
  render p true = Normal (mkTree (placeholder p) (disabled p) true (Some [])).
Proof.
  split; [reflexivity|].
  apply (@render_empty_options (mkProps "" [] None None None) true).
  reflexivity.
Defined.

(** X14.  An option whose group is absent, empty or literally ["Other"]
    lands in the one bucket named ["Other"], and that bucket holds no
    other kind of option. *)
Theorem Other_bucket_members (options : list SelectOption) :
  own_names_only options = true ->
  exists acc,
    groupedOptions options = Normal acc
    /\ forall o, In o options ->
         (defaults_to_Other o = true
          <-> exists b, In ("Other", b) acc /\ In o b).
Proof.
  intros H.
  destruct (groupedOptions_partition _ H) as (acc & Hacc & _ & Hall & Hsound).
  exists acc. split; [exact Hacc|]. intros o Ho. split.
  - intros Hd. apply group_of_Other in Hd.
    destruct (Hall o Ho) as (b & Hb & Hob). rewrite Hd in Hb. eauto.
  - intros (b & Hb & Hob). apply group_of_Other.
    symmetry. exact (proj2 (Hsound _ _ _ Hb Hob)).
Qed.

Lemma Other_bucket_members_witness :
  let options := [opt_a; opt_c; mkOption "d" "Delta" (Some "Other");
                  mkOption "e" "Eps" (Some "")] in
  own_names_only options = true /\
  exists acc,
    groupedOptions options = Normal acc
    /\ forall o, In o options ->
         (defaults_to_Other o = true
          <-> exists b, In ("Other", b) acc /\ In o b).
Proof.
  split; [reflexivity|]. apply Other_bucket_members. reflexivity.
Defined.

(** X15.  The effect and its cleanup are paired: on a document that does
    not yet hold the new handler, running the body and then the cleanup
    gives back the listener list as it was, whether the panel is open or
    not; the listeners that were there are all kept by the body. *)
Theorem effect_cleanup_roundtrip (open : bool) (h : nat) (d : list nat) :
  ~ In h d ->
  removeEventListener h (effect_body open h d) = d
  /\ (forall h', In h' d -> In h' (effect_body open h d)).
Proof.
  intros Hn.
  assert (Hd : removeEventListener h d = d).
  { unfold removeEventListener. apply filter_all_true. intros x Hx.
    apply negb_true_iff, Nat.eqb_neq. intros ->. contradiction. }
  assert (He : existsb (Nat.eqb h) d = false).
  { destruct (existsb (Nat.eqb h) d) eqn:E; [|reflexivity].
    apply existsb_exists in E. destruct E as (x & Hx & E).
    apply Nat.eqb_eq in E. subst x. contradiction. }
  unfold effect_body, addEventListener. rewrite He.
  destruct open; split; auto.
  - unfold removeEventListener in *. rewrite filter_app, Hd. simpl.
    rewrite Nat.eqb_refl. simpl. apply app_nil_r.
  - intros h' Hh. apply in_or_app. now left.
Qed.

Lemma effect_cleanup_roundtrip_witness :
  ~ In 7 [3; 5] /\
  removeEventListener 7 (effect_body true 7 [3; 5]) = [3; 5]
  /\ (forall h', In h' [3; 5] -> In h' (effect_body true 7 [3; 5])).
Proof.
  assert (N : ~ In 7 [3; 5]).
  { simpl. intros [H|[H|[]]]; discriminate H. }
  split; [exact N|]. apply effect_cleanup_roundtrip. exact N.
Defined.

(** X16.  Mounting succeeds exactly on the lists the grouping accepts; a
    mounted widget starts closed with no document listener, and a list
    that makes the first render throw leaves nothing mounted. *)
Theorem mount_outcome (p : GroupedSelectProps) :
  mount p = (if own_names_only (p_options p)
             then mkWorld [] 1 (Some (mkInstance p false 0))
             else mkWorld [] 0 None)
  /\ visible (mount p) = false /\ listeners (mount p) = [].
Proof.
  unfold mount. rewrite render_cases.
  destruct (own_names_only (p_options p)); repeat split.
Qed.

(** X17.  In a reachable world whose widget is not disabled, [n]
    activations of the trigger in a row call nothing and leave the panel
    as it was when [n] is even, flipped when [n] is odd. *)
Theorem trigger_parity (w : World) (i : Instance) (n : nat) :
  reachable w -> instance w = Some i -> disabled (props i) = false ->
  exists w',
    run w (repeat TriggerClick n) = Some (w', [])
    /\ visible w' = (if Nat.even n then visible w else negb (visible w)).
Proof.
  intros Hr Hi Hd.
  exact (@toggles_compose n w i (reachable_consistent Hr) Hi Hd).
Qed.

Lemma trigger_parity_witness :
  reachable (mount props1) /\
  instance (mount props1) = Some (mkInstance props1 false 0) /\
  disabled props1 = false /\
  exists w',
    run (mount props1) (repeat TriggerClick 5) = Some (w', [])
    /\ visible w' = (if Nat.even 5 then visible (mount props1)
                     else negb (visible (mount props1))).
Proof.
  split; [apply reach_mount|]. split; [reflexivity|]. split; [reflexivity|].
  apply (@trigger_parity (mount props1) (mkInstance props1 false 0) 5);
    [apply reach_mount|reflexivity|reflexivity].
Defined.

End Behaviour.
